(** * VLVector: a vector that lives inline up to [StaticCapacity] elements
      and on the heap beyond it (VLVector.hpp).

    The development embeds the member functions of [VLVector<T, StaticCapacity>]
    as computations over the memory a member function can touch: the fields
    of the receiver, one other vector, and one local array.  Every element
    access is bounds-checked, so a run that [Returns] touched no slot outside
    an allocated array; a run that would is [Undefined].

    Modelling conventions.
    - [size_t] quantities are [nat].  The preconditions of the theorems keep
      every subtraction of the source from going below zero.  [capfunc] is
      the one place where a value can leave its machine type: the call
      converts [StaticCapacity] to [int], and [3 * s] can exceed a 64-bit
      [size_t].  [Word.capfunc_call] is the function on machine integers.
      The member functions use [capfunc] on [nat], which is the same
      function as long as [StaticCapacity] is below [2^31] and [3 * s]
      below [2^64] ([capfunc_word_agrees]); what the machine function does
      outside that range is stated on [Word.capfunc_call] itself.
    - An array is a [list T]; a slot nobody has written holds [junk].
      Assigning an element copies its value.
    - [heapArr] is [None] for [nullptr] and for a block that was freed.
    - A pointer or iterator is an array together with an element offset.
      The member functions use their iterator arguments before they release
      a block.  The [const T &] parameter of [push_back] is read after
      [_reCap] may have released the block it points into, so a reference
      also records how many blocks the receiver had released when it was
      taken, and reading a reference into the receiver's heap block after
      a further release is undefined.
    - [std::copy(first, last, d_first)] is the loop that assigns
      [*d_first++ = *first++] until [first] reaches [last].
    - The range [[first, last)] of a generic [InputIterator] is the list of
      values it yields. *)

From Stdlib Require Import ZArith.
From stdpp Require Import base list strings.

(** ** Growth policy *)

(** [capfunc(size_t s, int stat, size_t nowCap)] on natural numbers: the
    function the source computes as long as no argument and no
    intermediate value leaves its machine type. *)
Definition capfunc (s stat nowCap : nat) : nat :=
  if s <=? stat then stat
  else if s <=? nowCap then nowCap
  else (3 * s) / 2.

(** The function on machine integers: [size_t] is 64 bits wide, [int] is
    32 bits wide and signed. *)
Module Word.
Local Open Scope Z_scope.

Definition size_t_of (z : Z) : Z := z mod 2 ^ 64.
Definition int_of (z : Z) : Z := (z + 2 ^ 31) mod 2 ^ 32 - 2 ^ 31.

Definition capfunc_word (s stat nowCap : Z) : Z :=
  if s <=? size_t_of stat then size_t_of stat
  else if s <=? nowCap then nowCap
  else size_t_of (3 * s) / 2.

(** The call [capfunc(s, StaticCapacity, _capacity)] converts the
    [unsigned long] template argument to [int]. *)
Definition capfunc_call (s StaticCapacity nowCap : Z) : Z :=
  capfunc_word s (int_of StaticCapacity) nowCap.
End Word.

(** ** Memory *)

(** The objects a member function sees: the receiver, and at most one other
    vector ([temp] in the range [insert], [rhs] in [operator==], [other] in
    the copy constructor). *)
Inductive owner := This | Other.

(** The arrays: the inline and the heap array of an object, and the local
    array [newArr]. *)
Inductive region := StackArr (o : owner) | HeapArr (o : owner) | NewArr.

Record ptr := Ptr { base : region; off : nat }.

Global Instance owner_eq_dec : EqDecision owner.
Proof. solve_decision. Defined.
Global Instance region_eq_dec : EqDecision region.
Proof. solve_decision. Defined.
Global Instance ptr_eq_dec : EqDecision ptr.
Proof. solve_decision. Defined.

(** The source compares with [>] and [>=]; make both decidable. *)
Global Instance nat_gt_dec (x y : nat) : Decision (x > y) := decide (y < x).
Global Instance nat_ge_dec (x y : nat) : Decision (x ≥ y) := decide (y ≤ x).

Definition ptr_add (p : ptr) (n : nat) : ptr := Ptr (base p) (off p + n).

Inductive exception := out_of_range (what : string).

(** The template parameters [<class T, unsigned long StaticCapacity>],
    together with [junk], the content of a slot that was allocated and
    never written. *)
Class Params (T : Type) := { junk : T; StaticCapacity : nat }.

Section VLVector.
Context `{Params T}.

(** The data members of the class; [heapArr] stands for the pointer together
    with the block it owns. *)
Record VLVector := mkVLVector {
  _size : nat;
  _capacity : nat;
  heapArr : option (list T);
  stackArr : list T
}.

(** What a member function works on.  Two fields are ghosts: [reads] logs
    every slot read so far, and [released] counts the heap blocks the
    receiver has given back with [delete[]]. *)
Record frame := mkFrame {
  this : VLVector;
  other : option VLVector;
  newArr : option (list T);
  reads : list ptr;
  released : nat
}.

(** A call returns a value, throws, or has no defined behaviour. *)
Inductive outcome (A : Type) :=
| Returns (a : A) (f : frame)
| Throws (e : exception) (f : frame)
| Undefined.
Global Arguments Returns {A} a f.
Global Arguments Throws {A} e f.
Global Arguments Undefined {A}.

Definition M (A : Type) : Type := frame → outcome A.

Global Instance M_ret : MRet M := λ A a f, Returns a f.
Global Instance M_bind : MBind M := λ A B k m f,
  match m f with
  | Returns a f' => k a f'
  | Throws e f' => Throws e f'
  | Undefined => Undefined
  end.

Definition undefined {A} : M A := λ _, Undefined.
Definition throw {A} (e : exception) : M A := λ f, Throws e f.

(** *** Field access *)

Definition object (o : owner) (f : frame) : option VLVector :=
  match o with This => Some (this f) | Other => other f end.

Definition with_object (o : owner) (v : VLVector) (f : frame) : frame :=
  match o with
  | This => mkFrame v (other f) (newArr f) (reads f) (released f)
  | Other => mkFrame (this f) (Some v) (newArr f) (reads f) (released f)
  end.

Definition get {A} (o : owner) (field : VLVector → A) : M A := λ f,
  match object o f with Some v => Returns (field v) f | None => Undefined end.

Definition modify (o : owner) (g : VLVector → VLVector) : M () := λ f,
  match object o f with
  | Some v => Returns () (with_object o (g v) f)
  | None => Undefined
  end.

Definition set_size (n : nat) : M () :=
  modify This (λ v, mkVLVector n (_capacity v) (heapArr v) (stackArr v)).
Definition set_capacity (n : nat) : M () :=
  modify This (λ v, mkVLVector (_size v) n (heapArr v) (stackArr v)).
Definition set_heapArr (h : option (list T)) : M () :=
  modify This (λ v, mkVLVector (_size v) (_capacity v) h (stackArr v)).

(** *** Arrays *)

Definition array (r : region) (f : frame) : option (list T) :=
  match r with
  | StackArr o => stackArr <$> object o f
  | HeapArr o => object o f ≫= heapArr
  | NewArr => newArr f
  end.

Definition with_array (r : region) (l : list T) (f : frame) : frame :=
  match r with
  | StackArr o =>
      match object o f with
      | Some v => with_object o (mkVLVector (_size v) (_capacity v) (heapArr v) l) f
      | None => f
      end
  | HeapArr o =>
      match object o f with
      | Some v => with_object o (mkVLVector (_size v) (_capacity v) (Some l) (stackArr v)) f
      | None => f
      end
  | NewArr => mkFrame (this f) (other f) (Some l) (reads f) (released f)
  end.

Definition log (p : ptr) (f : frame) : frame :=
  mkFrame (this f) (other f) (newArr f) (reads f ++ [p]) (released f).

(** [*p] as an rvalue *)
Definition load (p : ptr) : M T := λ f,
  match array (base p) f ≫= (.!! off p) with
  | Some x => Returns x (log p f)
  | None => Undefined
  end.

(** [*p = x] *)
Definition store (p : ptr) (x : T) : M () := λ f,
  match array (base p) f with
  | Some l =>
      if decide (off p < length l)
      then Returns () (with_array (base p) (<[off p := x]> l) f)
      else Undefined
  | None => Undefined
  end.

(** [p - q] converted to [size_t]; meaningful for two pointers into one
    array with [q] not after [p]. *)
Definition ptr_diff (p q : ptr) : M nat :=
  if decide (base p = base q ∧ off q ≤ off p)
  then mret (off p - off q)
  else undefined.

(** The loop of [std::copy]: [n] times [*d_first++ = *first++]. *)
Fixpoint copy_loop (n : nat) (first d_first : ptr) : M () :=
  match n with
  | 0 => mret ()
  | S n' =>
      x ← load first;
      store d_first x;;
      copy_loop n' (ptr_add first 1) (ptr_add d_first 1)
  end.

(** [std::copy(first, last, d_first)] *)
Definition std_copy (first last d_first : ptr) : M () :=
  n ← ptr_diff last first;
  copy_loop n first d_first.

(** [newArr = new T[n]] and [T newArr[n]] *)
Definition declare_newArr (n : nat) : M () := λ f,
  Returns () (mkFrame (this f) (other f) (Some (replicate n junk)) (reads f)
                      (released f)).

(** [heapArr = newArr], after which the local name goes out of scope. *)
Definition adopt_newArr : M () := λ f,
  match newArr f with
  | Some l =>
      let v := this f in
      Returns () (mkFrame (mkVLVector (_size v) (_capacity v) (Some l) (stackArr v))
                          (other f) None (reads f) (released f))
  | None => Undefined
  end.

(** End of the scope of the local array [newArr]. *)
Definition drop_newArr : M () := λ f,
  Returns () (mkFrame (this f) (other f) None (reads f) (released f)).

(** Ghost step: the receiver has released one more block. *)
Definition count_release : M () := λ f,
  Returns () (mkFrame (this f) (other f) (newArr f) (reads f)
                      (S (released f))).

(** [delete[] (heapArr)], which does nothing on [nullptr]; afterwards the
    block is gone, as it is after [heapArr = nullptr]. *)
Definition delete_heapArr : M () :=
  h ← get This heapArr;
  match h with
  | Some _ => set_heapArr None;; count_release
  | None => mret ()
  end.

(** *** References *)

(** An argument of type [const T &].  It is bound to an object apart from
    the arrays of the frame, such as a temporary or a variable of the
    caller, which is given by its value; or it is bound to a slot of one
    of the arrays, and then [taken] is the number of blocks the receiver
    had released when the reference was taken. *)
Inductive cref := Val (x : T) | Ref (p : ptr) (taken : nat).

(** Reading through a reference.  A reference into the heap block of the
    receiver dangles once the receiver has released that block, also when
    another block has taken its place. *)
Definition deref (r : cref) : M T :=
  match r with
  | Val x => mret x
  | Ref p taken => λ f,
      if decide (base p = HeapArr This ∧ taken ≠ released f)
      then Undefined
      else load p f
  end.

(** *** Member functions *)

(** [VLVector() : _size(0), _capacity(StaticCapacity), heapArr(nullptr)] *)
Definition VLVector_default : VLVector :=
  mkVLVector 0 StaticCapacity None (replicate StaticCapacity junk).

(** [begin()], of the receiver or of the other vector *)
Definition begin (o : owner) : M ptr :=
  capacity ← get o _capacity;
  if decide (capacity > StaticCapacity)
  then mret (Ptr (HeapArr o) 0)
  else mret (Ptr (StackArr o) 0).

(** [end()] *)
Definition end_ (o : owner) : M ptr :=
  b ← begin o;
  size ← get o _size;
  mret (ptr_add b size).

(** [_reCap(prevSize)], called once [_size] has its new value *)
Definition _reCap (prevSize : nat) : M () :=
  size ← get This _size;
  capacity ← get This _capacity;
  if decide (size ≤ capacity ∧ size > StaticCapacity) then mret ()
  else if decide (capacity = StaticCapacity) then
    if decide (size ≤ capacity) then mret ()
    else
      let newCap := capfunc size StaticCapacity capacity in
      set_heapArr (Some (replicate newCap junk));;
      std_copy (Ptr (StackArr This) 0) (Ptr (StackArr This) prevSize)
               (Ptr (HeapArr This) 0);;
      set_capacity newCap
  else if decide (capacity > StaticCapacity) then
    if decide (size ≥ capacity) then
      set_capacity (capfunc size StaticCapacity capacity);;
      capacity ← get This _capacity;
      declare_newArr capacity;;
      std_copy (Ptr (HeapArr This) 0) (Ptr (HeapArr This) prevSize)
               (Ptr NewArr 0);;
      delete_heapArr;;
      adopt_newArr
    else if decide (size ≤ StaticCapacity) then
      set_capacity StaticCapacity;;
      std_copy (Ptr (HeapArr This) 0) (Ptr (HeapArr This) size)
               (Ptr (StackArr This) 0);;
      delete_heapArr
    else mret ()
  else mret ().

(** [push_back(const T &add)], in its two steps.  The first is [_size++]
    and [_reCap(_size - 1)]. *)
Definition push_back_reCap : M () :=
  size ← get This _size;
  set_size (size + 1);;
  size ← get This _size;
  _reCap (size - 1).

(** The second is the assignment [heapArr[_size - 1] = add] or
    [stackArr[_size - 1] = add]; this is where the reference is read. *)
Definition push_back_assign (add : cref) : M () :=
  capacity ← get This _capacity;
  size ← get This _size;
  if decide (capacity > StaticCapacity)
  then x ← deref add; store (Ptr (HeapArr This) (size - 1)) x
  else x ← deref add; store (Ptr (StackArr This) (size - 1)) x.

Definition push_back (add : cref) : M () :=
  push_back_reCap;;
  push_back_assign add.

(** [pop_back()] *)
Definition pop_back : M () :=
  size ← get This _size;
  if decide (size = 0) then mret ()
  else
    set_size (size - 1);;
    size ← get This _size;
    _reCap (size + 1).

(** [clear()] *)
Definition clear : M () :=
  size ← get This _size;
  if decide (size = 0) then mret ()
  else
    let preSize := size in
    set_size 0;;
    _reCap preSize.

(** [operator[]]: a reference to slot [idx] of the active array. *)
Definition subscript (o : owner) (idx : nat) : M ptr :=
  capacity ← get o _capacity;
  if decide (capacity > StaticCapacity)
  then mret (Ptr (HeapArr o) idx)
  else mret (Ptr (StackArr o) idx).

(** [at], both overloads *)
Definition at_ (idx : nat) : M ptr :=
  size ← get This _size;
  if decide (idx < size)
  then subscript This idx
  else throw (out_of_range "index out of range").

(** [operator==], with [rhs] as the other vector *)
Fixpoint eq_loop `{EqDecision T} (n i : nat) : M bool :=
  match n with
  | 0 => mret true
  | S n' =>
      a ← subscript This i ≫= load;
      b ← subscript Other i ≫= load;
      if decide (a ≠ b) then mret false else eq_loop n' (S i)
  end.

Definition operator_eq `{EqDecision T} : M bool :=
  size ← get This _size;
  rsize ← get Other _size;
  if decide (size ≠ rsize) then mret false else eq_loop size 0.

(** [operator!=] *)
Definition operator_ne `{EqDecision T} : M bool :=
  b ← operator_eq; mret (negb b).

(** *** Constructors *)

(** The body of [VLVector(InputIterator first, InputIterator last)], run on
    a default-constructed receiver.  The input range is given by the
    values that dereferencing [first], [first + 1], ... yields; it lies
    apart from the arrays of the receiver, which is under construction. *)
Fixpoint VLVector_range (xs : list T) : M () :=
  match xs with
  | [] => mret ()
  | x :: xs' => push_back (Val x);; VLVector_range xs'
  end.

(** The values of [[first, last)] for two pointers. *)
Fixpoint read_loop (n : nat) (in_ : ptr) : M (list T) :=
  match n with
  | 0 => mret []
  | S n' =>
      x ← load in_;
      xs ← read_loop n' (ptr_add in_ 1);
      mret (x :: xs)
  end.

Definition read_range (first last : ptr) : M (list T) :=
  n ← ptr_diff last first; read_loop n first.

(** [VLVector(VLVector const &other) : VLVector(other.begin(), other.end())].
    The receiver is a fresh object, apart from [other], so the range is read
    first and pushed afterwards. *)
Definition VLVector_copy : M () :=
  first ← begin Other;
  last ← end_ Other;
  xs ← read_range first last;
  VLVector_range xs.

(** Run a constructor body on a fresh object. *)
Definition construct (ctor : M ()) (arg : option VLVector) : option VLVector :=
  match ctor (mkFrame VLVector_default arg None [] 0) with
  | Returns _ f => Some (this f)
  | _ => None
  end.

(** [auto temp = VLVector(first, last)] *)
Definition declare_temp (xs : list T) : M () := λ f,
  match construct (VLVector_range xs) None with
  | Some t =>
      Returns () (mkFrame (this f) (Some t) (newArr f) (reads f) (released f))
  | None => Undefined
  end.

(** A member function called on the other vector, as in [temp.clear()]. *)
Definition on_other {A} (m : M A) : M A := λ f,
  match other f with
  | Some t =>
      let back f' :=
        mkFrame (this f) (Some (this f')) (newArr f) (reads f) (released f) in
      match m (mkFrame t None None [] 0) with
      | Returns a f' => Returns a (back f')
      | Throws e f' => Throws e (back f')
      | Undefined => Undefined
      end
  | None => Undefined
  end.

(** End of the scope of [temp]. *)
Definition drop_temp : M () := λ f,
  Returns () (mkFrame (this f) None (newArr f) (reads f) (released f)).

(** *** insert *)

(** [insert(position, first, last)] *)
Definition insert_range (position : ptr) (xs : list T) : M ptr :=
  declare_temp xs;;
  numAdd ← get Other _size;
  b ← begin This;
  disPos ← ptr_diff position b;
  capacity ← get This _capacity;
  size ← get This _size;
  (if decide (capacity > StaticCapacity) then
     let orgSize := size in
     set_capacity (capfunc (size + numAdd) StaticCapacity capacity);;
     set_size (size + numAdd);;
     capacity ← get This _capacity;
     declare_newArr capacity;;
     b ← begin This;
     std_copy b position (Ptr NewArr 0);;
     tb ← begin Other;
     te ← end_ Other;
     std_copy tb te (Ptr NewArr disPos);;
     b ← begin This;
     std_copy position (ptr_add b orgSize) (Ptr NewArr (disPos + numAdd));;
     delete_heapArr;;
     adopt_newArr
   else if decide (size + numAdd > StaticCapacity) then
     let orgSize := size in
     set_capacity (capfunc (size + numAdd) StaticCapacity capacity);;
     set_size (size + numAdd);;
     capacity ← get This _capacity;
     declare_newArr capacity;;
     std_copy (Ptr (StackArr This) 0) position (Ptr NewArr 0);;
     tb ← begin Other;
     te ← end_ Other;
     std_copy tb te (Ptr NewArr disPos);;
     std_copy position (Ptr (StackArr This) orgSize)
              (Ptr NewArr (disPos + numAdd));;
     adopt_newArr
   else
     declare_newArr StaticCapacity;;
     let orgSize := size in
     set_size (size + numAdd);;
     b ← begin This;
     std_copy b (ptr_add b orgSize) (Ptr NewArr 0);;
     tb ← begin Other;
     te ← end_ Other;
     std_copy tb te (Ptr (StackArr This) disPos);;
     std_copy (Ptr NewArr disPos) (Ptr NewArr orgSize)
              (Ptr (StackArr This) (disPos + numAdd));;
     drop_newArr);;
  on_other clear;;
  b ← begin This;
  drop_temp;;
  mret (ptr_add b numAdd).

(** [insert(position, toAdd)] *)
Definition insert (position : ptr) (toAdd : T) : M ptr :=
  let numAdd := 1 in
  b ← begin This;
  disPos ← ptr_diff position b;
  capacity ← get This _capacity;
  size ← get This _size;
  (if decide (capacity > StaticCapacity) then
     let orgSize := size in
     set_capacity (capfunc (size + numAdd) StaticCapacity capacity);;
     set_size (size + numAdd);;
     capacity ← get This _capacity;
     declare_newArr capacity;;
     b ← begin This;
     std_copy b position (Ptr NewArr 0);;
     store (Ptr NewArr disPos) toAdd;;
     b ← begin This;
     std_copy position (ptr_add b orgSize) (Ptr NewArr (disPos + numAdd));;
     delete_heapArr;;
     adopt_newArr
   else if decide (size + numAdd > StaticCapacity) then
     let orgSize := size in
     set_capacity (capfunc (size + numAdd) StaticCapacity capacity);;
     set_size (size + numAdd);;
     capacity ← get This _capacity;
     declare_newArr capacity;;
     std_copy (Ptr (StackArr This) 0) position (Ptr NewArr 0);;
     store (Ptr NewArr disPos) toAdd;;
     std_copy position (Ptr (StackArr This) orgSize)
              (Ptr NewArr (disPos + numAdd));;
     adopt_newArr
   else
     declare_newArr StaticCapacity;;
     let orgSize := size in
     set_size (size + numAdd);;
     b ← begin This;
     std_copy b (ptr_add b orgSize) (Ptr NewArr 0);;
     store (Ptr (StackArr This) disPos) toAdd;;
     std_copy (Ptr NewArr disPos) (Ptr NewArr orgSize)
              (Ptr (StackArr This) (disPos + numAdd));;
     drop_newArr);;
  b ← begin This;
  mret (ptr_add b disPos).

(** *** erase *)

(** [erase(first, last)] *)
Definition erase_range (first last : ptr) : M ptr :=
  numSub ← ptr_diff last first;
  b ← begin This;
  disFirst ← ptr_diff first b;
  size ← get This _size;
  (if decide (size ≤ StaticCapacity) then
     let orgSize := size in
     set_size (size - numSub);;
     b ← begin This;
     std_copy last (ptr_add b orgSize) first
   else if decide (size > StaticCapacity ∧ size - numSub ≤ StaticCapacity) then
     std_copy (Ptr (HeapArr This) 0) first (Ptr (StackArr This) 0);;
     e ← end_ This;
     std_copy last e (Ptr (StackArr This) disFirst);;
     set_capacity StaticCapacity;;
     set_size (size - numSub);;
     delete_heapArr
   else
     e ← end_ This;
     std_copy last e (Ptr (HeapArr This) disFirst);;
     set_size (size - numSub));;
  b ← begin This;
  mret (ptr_add b disFirst).

(** [erase(toRemove)] *)
Definition erase (toRemove : ptr) : M ptr :=
  let end_it := ptr_add toRemove 1 in
  erase_range toRemove end_it.

(** *** Queries and the destructor *)

(** [size()] *)
Definition size_ : M nat := get This _size.

(** [capacity()] *)
Definition capacity_ : M nat := get This _capacity.

(** [empty()] *)
Definition empty_ : M bool :=
  size ← get This _size;
  mret (bool_decide (size = 0)).

(** [data()], both overloads *)
Definition data : M ptr :=
  capacity ← get This _capacity;
  if decide (capacity > StaticCapacity)
  then mret (Ptr (HeapArr This) 0)
  else mret (Ptr (StackArr This) 0).

(** [cbegin()] and [cend()] *)
Definition cbegin : M ptr := begin This.
Definition cend : M ptr := end_ This.


(** *** operator= *)

(** [operator=] works on two objects that may be one and the same, so it is
    run on a store of objects addressed by position; the temporary
    [VLVector(rhs)] lives at a fresh address past the end.

    The source tests [&rhs == *this], a pointer against an object, which
    no [operator==] accepts.  Both readings a repair can take are modelled:
    the addresses are compared, or the values are. *)
Inductive self_test := ByIdentity | ByValue.

(** [operator=] calls itself, so it runs on fuel: [OutOfFuel] is a run that
    was still going when the fuel ended, [Crashed] one that met undefined
    behaviour. *)
Inductive run (A : Type) := Done (a : A) | Crashed | OutOfFuel.
Global Arguments Done {A} a.
Global Arguments Crashed {A}.
Global Arguments OutOfFuel {A}.

(** A member function called on object [v], with [arg] as the other vector. *)
Definition call {A} (m : M A) (v : VLVector) (arg : option VLVector)
  : option (A * VLVector) :=
  match m (mkFrame v arg None [] 0) with
  | Returns a f => Some (a, this f)
  | _ => None
  end.

(** The test [&rhs == *this], under either reading *)
Definition rhs_is_this `{EqDecision T} (how : self_test)
    (this_ rhs : nat) (a b : VLVector) : option bool :=
  match how with
  | ByIdentity => Some (bool_decide (rhs = this_))
  | ByValue => fst <$> call operator_eq b (Some a)
  end.

(** [operator=(rhs)] on the object at address [this_]; the temporary is
    destroyed when the inner call has returned. *)
Fixpoint operator_assign `{EqDecision T} (how : self_test) (fuel : nat)
    (σ : list VLVector) (this_ rhs : nat) : run (list VLVector) :=
  match fuel with
  | 0 => OutOfFuel
  | S fuel' =>
      match σ !! this_, σ !! rhs with
      | Some a, Some b =>
          match rhs_is_this how this_ rhs a b with
          | Some true => Done σ
          | Some false =>
              (* this->clear() *)
              match call clear a None with
              | Some (_, a') =>
                  let σ1 := <[this_ := a']> σ in
                  (* VLVector(rhs) *)
                  match σ1 !! rhs ≫= λ b', construct VLVector_copy (Some b') with
                  | Some t =>
                      let tmp := length σ1 in
                      (* *this = VLVector(rhs) *)
                      match operator_assign how fuel' (σ1 ++ [t]) this_ tmp with
                      | Done σ2 => Done (take tmp σ2)
                      | Crashed => Crashed
                      | OutOfFuel => OutOfFuel
                      end
                  | None => Crashed
                  end
              | None => Crashed
              end
          | None => Crashed
          end
      | _, _ => Crashed
      end
  end.

(** ** Abstraction *)

(** The array [begin()] points into, for the object in role [o]. *)
Definition active_region (o : owner) (v : VLVector) : region :=
  if decide (_capacity v > StaticCapacity) then HeapArr o else StackArr o.

(** The content of that array. *)
Definition active (v : VLVector) : option (list T) :=
  if decide (_capacity v > StaticCapacity) then heapArr v else Some (stackArr v).

(** The sequence [[begin(), end())]. *)
Definition elements (v : VLVector) : list T :=
  take (_size v) (default [] (active v)).

(** The iterator [begin() + p]. *)
Definition iterator (v : VLVector) (p : nat) : ptr :=
  Ptr (active_region This v) p.

(** Where the container keeps its elements, as [begin()] decides it. *)
Definition inline (v : VLVector) : Prop := _capacity v = StaticCapacity.
Definition on_heap (v : VLVector) : Prop := _capacity v > StaticCapacity.

(** Representation invariant: [stackArr] has [StaticCapacity] slots; an
    inline container has no heap block and at most [StaticCapacity]
    elements; a container on the heap has more, in a block of [_capacity]
    slots. *)
Definition wf (v : VLVector) : Prop :=
  length (stackArr v) = StaticCapacity ∧
  ((_capacity v = StaticCapacity ∧ _size v ≤ StaticCapacity ∧ heapArr v = None) ∨
   (_capacity v > StaticCapacity ∧ _size v > StaticCapacity ∧
    _size v ≤ _capacity v ∧
    ∃ h, heapArr v = Some h ∧ length h = _capacity v)).

(** [l] with the run [xs] written over it from index [d] on. *)
Definition overwrite (d : nat) (xs l : list T) : list T :=
  take d l ++ xs ++ drop (d + length xs) l.

(** A frame holding just the receiver. *)
Definition frame_of (v : VLVector) : frame := mkFrame v None None [] 0.

(** *** References a caller can pass *)

(** The reference [r], taken in frame [f], is bound to an object that holds
    [x]: an object of the caller's, or a slot of an array of the receiver
    or of the other vector. *)
Definition refers (r : cref) (f : frame) (x : T) : Prop :=
  match r with
  | Val y => y = x
  | Ref p taken =>
      base p ≠ NewArr ∧
      (base p = HeapArr This → taken = released f) ∧
      array (base p) f ≫= (.!! off p) = Some x
  end.

(** [r] points into the heap block of the receiver. *)
Definition into_heapArr (r : cref) : Prop :=
  match r with
  | Val _ => False
  | Ref p _ => base p = HeapArr This
  end.

(** A reference that [push_back] can read once [_reCap] has returned: one
    into the heap block of the receiver is left dangling when the block is
    full, because the call replaces it. *)
Definition survives_push_back (r : cref) (v : VLVector) : Prop :=
  into_heapArr r → _size v < _capacity v.

(** The slots read through [r]. *)
Definition ref_reads (r : cref) : list ptr :=
  match r with
  | Val _ => []
  | Ref p _ => [p]
  end.

(** *** Public operations and reachable containers *)

(** The calls a user can make on a container once it is constructed. *)
Inductive operation :=
| OpPushBack (add : cref)
| OpPopBack
| OpClear
| OpInsert (p : nat) (x : T)
| OpInsertRange (p : nat) (xs : list T)
| OpErase (p : nat)
| OpEraseRange (a b : nat)
| OpAt (idx : nat).

(** Iterator arguments are given by their distance from [begin()]. *)
Definition perform (o : operation) : M () :=
  match o with
  | OpPushBack add => push_back add
  | OpPopBack => pop_back
  | OpClear => clear
  | OpInsert p x => b ← begin This; insert (ptr_add b p) x;; mret ()
  | OpInsertRange p xs => b ← begin This; insert_range (ptr_add b p) xs;; mret ()
  | OpErase p => b ← begin This; erase (ptr_add b p);; mret ()
  | OpEraseRange a b' =>
      b ← begin This; erase_range (ptr_add b a) (ptr_add b b');; mret ()
  | OpAt idx => at_ idx;; mret ()
  end.

(** The caller's side of the contract: iterators lie within the container,
    and the reference given to [push_back] is bound and stays so until it
    is read. *)
Definition valid_args (o : operation) (v : VLVector) : Prop :=
  match o with
  | OpPushBack add =>
      (∃ x, refers add (frame_of v) x) ∧ survives_push_back add v
  | OpInsert p _ | OpInsertRange p _ => p ≤ _size v
  | OpErase p => p < _size v
  | OpEraseRange a b => a ≤ b ∧ b ≤ _size v
  | _ => True
  end.

(** [out] hands control back to the caller, leaving the receiver as [v']. *)
Definition completes {A} (out : outcome A) (v' : VLVector) : Prop :=
  match out with
  | Returns _ f' | Throws _ f' => this f' = v'
  | Undefined => False
  end.

(** The containers a program can hold: what the constructors build and what
    the operations, called within their contract, make of it. *)
Inductive reachable : VLVector → Prop :=
| reach_default : reachable VLVector_default
| reach_range xs v :
    construct (VLVector_range xs) None = Some v → reachable v
| reach_copy u v :
    reachable u → construct VLVector_copy (Some u) = Some v → reachable v
| reach_step o v v' :
    reachable v → valid_args o v →
    completes (perform o (frame_of v)) v' → reachable v'.

(** What the data model promises of a container between two operations. *)
Definition storage_invariant (v : VLVector) : Prop :=
  _capacity v ≥ StaticCapacity ∧
  (inline v ↔ _size v ≤ StaticCapacity) ∧
  (on_heap v ↔ _size v > StaticCapacity) ∧
  (inline v → length (stackArr v) = StaticCapacity) ∧
  (on_heap v →
     ∃ h, heapArr v = Some h ∧ length h = _capacity v ∧ _size v ≤ length h).

(** The exception of a failed [at] determines the index that was asked. *)
Definition error_identifies_index (f : frame) : Prop :=
  ∃ index_of : exception → nat,
    ∀ idx e f', at_ idx f = Throws e f' → index_of e = idx.

(** The array a transition of [_reCap] copies into, as it is before the
    copy: a block fresh from [new T[_capacity]] when the receiver ends up
    on the heap, the inline array otherwise. *)
Definition destination (f f' : frame) : list T :=
  if decide (_capacity (this f') > StaticCapacity)
  then replicate (_capacity (this f')) junk
  else stackArr (this f).

(** What a run of [_reCap] that took the receiver from [f] to [f'] copied,
    with [m] the smaller of the two sizes.  When the capacity stayed as it
    was, there was no transition and no slot was read.  Otherwise the first
    [m] slots of the array that was active were read, each once and in
    order, and no other; and the array that is active afterwards is the
    destination with exactly these [m] values written over its first [m]
    slots. *)
Definition copied_min_of_sizes (f f' : frame) : Prop :=
  let m := _size (this f) `min` _size (this f') in
  ∃ log, reads f' = reads f ++ log ∧
    (_capacity (this f') = _capacity (this f) ∧ log = [] ∨
     _capacity (this f') ≠ _capacity (this f) ∧
     log = Ptr (active_region This (this f)) <$> seq 0 m ∧
     ∃ src dst,
       active (this f) = Some src ∧ active (this f') = Some dst ∧
       dst = overwrite 0 (take m src) (destination f f')).

(** ** Reasoning about runs *)

(** The frame [f] after the slots [ps] were read. *)
Definition log_all (ps : list ptr) f : frame :=
  mkFrame (this f) (other f) (newArr f) (reads f ++ ps) (released f).

(** [m], started in [f], returns a value and a frame that satisfy [Q]. *)
Definition wp {A} (m : M A) (Q : A → frame → Prop) (f : frame) : Prop :=
  match m f with
  | Returns a f' => Q a f'
  | _ => False
  end.

End VLVector.

(** The types are written with their element type, as in [VLVector<T>]. *)
Global Arguments VLVector : clear implicits.
Global Arguments frame : clear implicits.
Global Arguments outcome : clear implicits.
Global Arguments M : clear implicits.
Global Arguments operation : clear implicits.

(** * Concrete containers

    [VLVector<nat, 4>], with [0] in the slots nobody wrote. *)

Global Instance nat_4 : Params nat := {| junk := 0; StaticCapacity := 4 |}.

(** [{1, 2, 3}], inline. *)
Definition v123 : VLVector nat := mkVLVector 3 4 None [1; 2; 3; 0].

(** [{1, 2, 3, 4}], inline and full. *)
Definition v1234 : VLVector nat := mkVLVector 4 4 None [1; 2; 3; 4].

(** [{1, 2, 3, 4, 5}], on the heap after the fifth [push_back]. *)
Definition v12345 : VLVector nat :=
  mkVLVector 5 7 (Some [1; 2; 3; 4; 5; 0; 0]) [1; 2; 3; 4].

(** [{7}], inline. *)
Definition v7 : VLVector nat := mkVLVector 1 4 None [7; 0; 0; 0].

(** [{1, 2, 3, 4, 5}] again, in a heap block of twelve slots. *)
Definition v12345_wide : VLVector nat :=
  mkVLVector 5 12 (Some [1; 2; 3; 4; 5; 0; 0; 0; 0; 0; 0; 0]) [9; 9; 9; 9].

(** [{1, 2, 3, 4, 5, 6}], as the range constructor builds it. *)
Definition v123456 : VLVector nat :=
  mkVLVector 6 7 (Some [1; 2; 3; 4; 5; 6; 0]) [1; 2; 3; 4].

(** [{1, 4, 5, 6}]: the previous container after its second and third
    element were erased, which brought it back inline. *)
Definition v1456 : VLVector nat := mkVLVector 4 4 None [1; 4; 5; 6].

(** [{1, 2, 3, 4, 5, 6, 7}] in a heap block that is full. *)
Definition v1234567 : VLVector nat :=
  mkVLVector 7 7 (Some [1; 2; 3; 4; 5; 6; 7]) [1; 2; 3; 4].

(** * Proofs *)

Section VLVector_proofs.
Context `{Params T}.
Implicit Types (v : VLVector T) (f : frame T) (r : region).
Implicit Types (l xs src dst : list T).

(** ** Writing a run of slots *)

Lemma length_overwrite d xs l :
  d + length xs ≤ length l → length (overwrite d xs l) = length l.
Proof.
  intros. unfold overwrite.
  rewrite !length_app, length_take_le, length_drop by lia. lia.
Qed.

Lemma overwrite_nil d l : overwrite d [] l = l.
Proof. unfold overwrite; simpl. rewrite Nat.add_0_r. apply take_drop. Qed.

Lemma overwrite_cons d x xs l :
  d < length l → overwrite (S d) xs (<[d:=x]> l) = overwrite d (x :: xs) l.
Proof.
  intros Hd. unfold overwrite.
  rewrite drop_insert_lt by lia.
  rewrite (take_S_r _ _ x) by (by apply list_lookup_insert_eq).
  rewrite take_insert_ge by lia.
  rewrite <- app_assoc. simpl. repeat f_equal. lia.
Qed.

Lemma take_overwrite d xs l :
  d ≤ length l → take (d + length xs) (overwrite d xs l) = take d l ++ xs.
Proof.
  intros. unfold overwrite.
  rewrite app_assoc, take_app_length'; [done|].
  rewrite length_app, length_take_le by lia. lia.
Qed.

(** ** Arrays of a frame *)

Lemma array_with_array_eq r l f :
  is_Some (array r f) → array r (with_array r l f) = Some l.
Proof.
  destruct f as [v o na rd fr], r as [[]|[]|]; simpl; try done;
    destruct o; simpl; try done; by intros [? ?].
Qed.

Lemma array_with_array_ne r r' l f :
  r ≠ r' → array r (with_array r' l f) = array r f.
Proof.
  destruct f as [v o na rd fr], r as [[]|[]|], r' as [[]|[]|]; simpl; try done;
    destruct o; simpl; done.
Qed.

Lemma with_array_id r l f : array r f = Some l → with_array r l f = f.
Proof.
  destruct f as [[sz cap h st] o na rd fr], r as [[]|[]|]; simpl; intros;
    simplify_eq; try done.
  all: destruct o as [[]|]; simpl in *; simplify_eq; done.
Qed.

Lemma log_all_nil f : log_all [] f = f.
Proof. destruct f; unfold log_all; simpl. by rewrite app_nil_r. Qed.

Lemma copy_step_frame r p ps l1 l2 f :
  log_all ps (with_array r l2 (with_array r l1 (log p f)))
  = log_all (p :: ps) (with_array r l2 f).
Proof.
  destruct f as [[sz cap h st] o na rd fr], r as [[]|[]|]; unfold log_all; simpl;
    rewrite <- ?app_assoc; try done.
  all: destruct o as [[]|]; simpl; rewrite <- ?app_assoc; done.
Qed.

Lemma array_log r p f : array r (log p f) = array r f.
Proof. by destruct r as [[]|[]|]. Qed.

(** ** Loads, stores and [std::copy] *)

Lemma bind_Returns {A B} (m : M T A) (k : A → M T B) f a f' :
  m f = Returns a f' → (m ≫= k) f = k a f'.
Proof. unfold mbind, M_bind. by intros ->. Qed.

Lemma load_Returns p f l x :
  array (base p) f = Some l → l !! off p = Some x →
  load p f = Returns x (log p f).
Proof. unfold load. intros -> Hx. simpl. by rewrite Hx. Qed.

Lemma store_Returns p x f l :
  array (base p) f = Some l → off p < length l →
  store p x f = Returns () (with_array (base p) (<[off p:=x]> l) f).
Proof. unfold store. intros -> Hx. by rewrite decide_True. Qed.

(** [std::copy] between two arrays, or within one array towards lower
    addresses, writes the source run over the destination and reads each
    source slot once, in order. *)
Lemma copy_loop_spec n : ∀ r1 s r2 d f src dst,
  array r1 f = Some src → array r2 f = Some dst →
  r1 ≠ r2 ∨ d ≤ s →
  s + n ≤ length src → d + n ≤ length dst →
  copy_loop n (Ptr r1 s) (Ptr r2 d) f =
    Returns () (log_all (Ptr r1 <$> seq s n)
                  (with_array r2 (overwrite d (take n (drop s src)) dst) f)).
Proof.
  induction n as [|n IH]; intros r1 s r2 d f src dst Hsrc Hdst Hov Hs Hd.
  - simpl. rewrite overwrite_nil, with_array_id, log_all_nil by done. done.
  - destruct (lookup_lt_is_Some_2 src s) as [x Hx]; [lia|].
    cbn [copy_loop].
    rewrite (bind_Returns _ _ _ _ _ (load_Returns (Ptr r1 s) _ _ _ Hsrc Hx)).
    assert (Hdst' : array r2 (log (Ptr r1 s) f) = Some dst)
      by (by rewrite array_log).
    rewrite (bind_Returns _ _ _ _ _ (store_Returns (Ptr r2 d) x _ _ Hdst' ltac:(simpl; lia))).
    cbn [base off ptr_add].
    set (f1 := with_array _ _ _).
    assert (Hd1 : array r2 f1 = Some (<[d:=x]> dst)).
    { apply array_with_array_eq. by rewrite Hdst'. }
    assert (∃ src1, array r1 f1 = Some src1 ∧ length src1 = length src ∧
              drop (S s) src1 = drop (S s) src) as (src1 & Hs1 & Hlen & Hdrop).
    { destruct (decide (r1 = r2)) as [->|Hne].
      - exists (<[d:=x]> dst). assert (src = dst) as -> by congruence.
        split; [done|]. rewrite length_insert. split; [done|].
        apply drop_insert_lt. destruct Hov; [done|lia].
      - exists src. split; [|done]. unfold f1.
        by rewrite array_with_array_ne, array_log. }
    unfold ptr_add; cbn [base off]. rewrite !Nat.add_1_r.
    rewrite (IH _ _ _ _ _ _ _ Hs1 Hd1);
      [|destruct Hov; [by left|right; lia]|lia|rewrite length_insert; lia].
    rewrite Hdrop, overwrite_cons by lia.
    rewrite (drop_S _ _ _ Hx). cbn [take seq fmap list_fmap].
    unfold f1. by rewrite copy_step_frame.
Qed.

Lemma std_copy_spec r1 s e r2 d f src dst :
  array r1 f = Some src → array r2 f = Some dst →
  r1 ≠ r2 ∨ d ≤ s →
  s ≤ e → e ≤ length src → d + (e - s) ≤ length dst →
  std_copy (Ptr r1 s) (Ptr r1 e) (Ptr r2 d) f =
    Returns () (log_all (Ptr r1 <$> seq s (e - s))
                  (with_array r2 (overwrite d (take (e - s) (drop s src)) dst) f)).
Proof.
  intros. unfold std_copy, ptr_diff. cbn [base off].
  rewrite decide_True by done.
  erewrite bind_Returns by reflexivity.
  apply copy_loop_spec; auto with lia.
Qed.



(** ** Rules for stepping through a member function *)

Lemma wp_Returns {A} (m : M T A) Q f :
  wp m Q f ↔ ∃ a f', m f = Returns a f' ∧ Q a f'.
Proof.
  unfold wp. destruct (m f) as [a f'|e f'|]; split.
  - intros HQ. by exists a, f'.
  - by intros (? & ? & [= <- <-] & HQ).
  - done.
  - by intros (? & ? & ? & _).
  - done.
  - by intros (? & ? & ? & _).
Qed.

Lemma wp_bind {A B} (m : M T A) (k : A → M T B) Q f :
  wp m (λ a f', wp (k a) Q f') f → wp (m ≫= k) Q f.
Proof. unfold wp, mbind, M_bind. by destruct (m f). Qed.

Lemma wp_ret {A} (a : A) Q f : Q a f → wp (mret a) Q f.
Proof. done. Qed.

Lemma wp_mono {A} (m : M T A) (P Q : A → frame T → Prop) f :
  wp m P f → (∀ a f', P a f' → Q a f') → wp m Q f.
Proof. unfold wp. destruct (m f); auto. Qed.

Lemma wp_get {A} o (field : VLVector T → A) Q f v :
  object o f = Some v → Q (field v) f → wp (get o field) Q f.
Proof. unfold wp, get. by intros ->. Qed.

Lemma wp_modify o g Q f v :
  object o f = Some v → Q () (with_object o (g v) f) → wp (modify o g) Q f.
Proof. unfold wp, modify. by intros ->. Qed.

Lemma wp_store p x Q f l :
  array (base p) f = Some l → off p < length l →
  Q () (with_array (base p) (<[off p:=x]> l) f) → wp (store p x) Q f.
Proof. intros Hl Hp. unfold wp. by rewrite (store_Returns _ _ _ _ Hl Hp). Qed.

Lemma wp_std_copy r1 s e r2 d Q f src dst :
  array r1 f = Some src → array r2 f = Some dst →
  r1 ≠ r2 ∨ d ≤ s →
  s ≤ e → e ≤ length src → d + (e - s) ≤ length dst →
  Q () (log_all (Ptr r1 <$> seq s (e - s))
          (with_array r2 (overwrite d (take (e - s) (drop s src)) dst) f)) →
  wp (std_copy (Ptr r1 s) (Ptr r1 e) (Ptr r2 d)) Q f.
Proof. intros. unfold wp. by erewrite std_copy_spec. Qed.

Ltac frame_simpl :=
  cbv beta; unfold ptr_add, log_all;
  cbn [this other newArr reads released _size _capacity heapArr stackArr
       with_object object with_array base off].

Lemma wp_begin o Q f v :
  object o f = Some v → Q (Ptr (active_region o v) 0) f → wp (begin o) Q f.
Proof.
  intros Hv HQ. unfold begin. apply wp_bind. eapply wp_get; [done|].
  unfold active_region in HQ. by case_decide.
Qed.

Lemma wp_ptr_diff p q Q f :
  base p = base q → off q ≤ off p → Q (off p - off q) f →
  wp (ptr_diff p q) Q f.
Proof. intros. unfold wp, ptr_diff. by rewrite decide_True. Qed.

Lemma wp_begin_heap Q f v :
  object This f = Some v → _capacity v > StaticCapacity →
  Q (Ptr (HeapArr This) 0) f → wp (begin This) Q f.
Proof.
  intros Hv Hc HQ. eapply wp_begin; [done|].
  unfold active_region. by rewrite decide_True.
Qed.

Lemma wp_begin_stack Q f v :
  object This f = Some v → ¬ _capacity v > StaticCapacity →
  Q (Ptr (StackArr This) 0) f → wp (begin This) Q f.
Proof.
  intros Hv Hc HQ. eapply wp_begin; [done|].
  unfold active_region. by rewrite decide_False.
Qed.

Lemma wp_eval {A} (m : M T A) Q f a f' :
  m f = Returns a f' → Q a f' → wp m Q f.
Proof. unfold wp. by intros ->. Qed.

Ltac solve_len :=
  frame_simpl; cbn [length];
  repeat first
    [ rewrite length_replicate
    | rewrite length_insert
    | rewrite length_overwrite by solve_len
    | rewrite length_take_le by solve_len
    | rewrite length_drop ];
  cbn [length]; lia.

Ltac wp_step :=
  lazymatch goal with
  | |- wp (_ ≫= _) _ _ => apply wp_bind
  | |- wp (mret _) _ _ => apply wp_ret
  | |- wp push_back_reCap _ _ => unfold push_back_reCap
  | |- wp (push_back_assign _) _ _ => unfold push_back_assign
  | |- wp (get _ _) _ _ => eapply wp_get; [reflexivity|]
  | |- wp (set_size _) _ _ => eapply wp_modify; [reflexivity|]
  | |- wp (set_capacity _) _ _ => eapply wp_modify; [reflexivity|]
  | |- wp (set_heapArr _) _ _ => eapply wp_modify; [reflexivity|]
  | |- wp (declare_newArr _) _ _ => eapply wp_eval; [reflexivity|]
  | |- wp adopt_newArr _ _ => eapply wp_eval; [reflexivity|]
  | |- wp drop_newArr _ _ => eapply wp_eval; [reflexivity|]
  | |- wp drop_temp _ _ => eapply wp_eval; [reflexivity|]
  | |- wp delete_heapArr _ _ => eapply wp_eval; [reflexivity|]
  | |- wp (begin This) _ _ =>
      first [ eapply wp_begin_heap; [reflexivity|frame_simpl; lia|]
            | eapply wp_begin_stack; [reflexivity|frame_simpl; lia|] ]
  | |- wp (begin Other) _ _ => eapply wp_begin; [reflexivity|]
  | |- wp (end_ _) _ _ => unfold end_
  | |- wp (ptr_diff _ _) _ _ => eapply wp_ptr_diff; [reflexivity|cbn [off]; lia|]
  | |- wp (if decide _ then _ else _) _ _ =>
      first [ rewrite decide_True by lia
            | rewrite decide_False by lia ]
  | |- wp (store _ _) _ _ =>
      eapply wp_store; [reflexivity|solve_len|]
  | |- wp (std_copy _ _ _) _ _ =>
      eapply wp_std_copy;
      [reflexivity|reflexivity|first [by left|right; lia]
      |lia|solve_len|solve_len|]
  end;
  frame_simpl.

(** ** The growth policy *)

Lemma capfunc_inline s N c : s ≤ N → capfunc s N c = N.
Proof. unfold capfunc. intros. by rewrite (proj2 (Nat.leb_le _ _)). Qed.

Lemma capfunc_keep s N c : N < s → s ≤ c → capfunc s N c = c.
Proof.
  unfold capfunc. intros.
  rewrite (proj2 (Nat.leb_gt _ _)) by lia. by rewrite (proj2 (Nat.leb_le _ _)).
Qed.

Lemma capfunc_grow s N c : N < s → c < s → capfunc s N c = 3 * s / 2.
Proof.
  unfold capfunc. intros. by rewrite !(proj2 (Nat.leb_gt _ _)) by lia.
Qed.

Lemma grow_ge s : s ≤ 3 * s / 2.
Proof. apply Nat.div_le_lower_bound; lia. Qed.

Lemma capfunc_ge s N c : s ≤ capfunc s N c ∧ N ≤ capfunc s N c.
Proof.
  unfold capfunc. pose proof (grow_ge s).
  destruct (Nat.leb_spec s N); [lia|].
  destruct (Nat.leb_spec s c); lia.
Qed.

(** ** [push_back], [pop_back], [clear] *)

Lemma take_S_insert n x l :
  n < length l → take (S n) (<[n:=x]> l) = take n l ++ [x].
Proof.
  intros. rewrite (take_S_r _ _ x) by (by apply list_lookup_insert_eq).
  by rewrite take_insert_ge.
Qed.

Lemma take_overwrite' n d xs l :
  n = d + length xs → d ≤ length l →
  take n (overwrite d xs l) = take d l ++ xs.
Proof. intros ->. apply take_overwrite. Qed.

Ltac norm_arith :=
  rewrite ?Nat.add_sub, ?Nat.sub_0_r, ?Nat.add_0_l, ?Nat.add_0_r, ?Nat.add_1_r,
    ?drop_0.

Ltac unfold_elements :=
  unfold elements, active; cbn [_size _capacity heapArr stackArr];
  repeat first [rewrite decide_True by lia | rewrite decide_False by lia];
  cbn [default from_option id].

Ltac log_region :=
  unfold active_region; cbn [_capacity];
  first [rewrite decide_True by lia | rewrite decide_False by lia];
  split; [done|lia].

(** *** References *)

Lemma deref_Returns add x f :
  refers add f x → deref add f = Returns x (log_all (ref_reads add) f).
Proof.
  destruct add as [y|p taken]; cbn [refers deref ref_reads].
  - intros ->. by rewrite log_all_nil.
  - intros (_ & Htaken & Hx). rewrite decide_False by naive_solver.
    unfold load. by rewrite Hx.
Qed.

Lemma wp_deref add x Q f :
  refers add f x → Q x (log_all (ref_reads add) f) → wp (deref add) Q f.
Proof. intros Hx HQ. unfold wp. by rewrite (deref_Returns _ _ _ Hx). Qed.

(** A reference stays bound as long as the array it points into and the
    count of released blocks stay as they are. *)
Lemma refers_stable add x f f' :
  refers add f x →
  (∀ p taken, add = Ref p taken →
     array (base p) f' = array (base p) f ∧
     (base p = HeapArr This → released f' = released f)) →
  refers add f' x.
Proof.
  destruct add as [y|p taken]; [done|]. cbn [refers].
  intros (Hnew & Htaken & Hx) Hsame.
  destruct (Hsame p taken eq_refl) as [-> Hrel].
  split_and!; [done| |done]. intros Hp. rewrite Hrel by done. auto.
Qed.

(** The reference of a [push_back] is still bound when it is read: the
    arrays of [f'] are those of [f], apart from a heap block the receiver
    did not have. *)
Ltac keep_reference Hadd :=
  eapply refers_stable; [exact Hadd|];
  let r := fresh "r" in let i := fresh "i" in
  intros [r i] ? ->;
  destruct r as [[]|[]|];
  cbn [refers base off array object this other newArr released fmap
       option_fmap option_map mbind option_bind heapArr stackArr] in Hadd |- *;
  try done;
  try (exfalso; unfold survives_push_back in *; cbn in *; naive_solver lia).

(** A reference to an object of the caller's is as good as its value. *)
Lemma refers_Val x f : refers (Val x) f x.
Proof. done. Qed.

Lemma survives_Val x v : survives_push_back (Val x) v.
Proof. intros []. Qed.

Lemma push_back_spec add x f :
  wf (this f) → refers add f x → survives_push_back add (this f) →
  wp (push_back add) (λ _ f',
    wf (this f') ∧
    _size (this f') = S (_size (this f)) ∧
    elements (this f') = elements (this f) ++ [x] ∧
    other f' = other f ∧
    ∃ log, reads f' = reads f ++ log ++ ref_reads add ∧
      (log = [] ∧ _capacity (this f') = _capacity (this f) ∨
       log = Ptr (active_region This (this f)) <$> seq 0 (_size (this f)) ∧
       _capacity (this f') ≠ _capacity (this f))) f.
Proof.
  intros Hwf Hadd Hsafe. pose proof Hwf as Hwf0.
  destruct f as [[sz cap h st] o na rd fr]. unfold wf in Hwf0; simpl in Hwf0.
  destruct Hwf0 as [Hst [(-> & Hsz & ->) | (Hcap & Hsz & Hle & h' & -> & Hh)]].
  - unfold push_back. repeat wp_step. unfold _reCap. repeat wp_step.
    destruct (decide (sz + 1 ≤ StaticCapacity)).
    + repeat wp_step. eapply wp_deref; [keep_reference Hadd|].
      repeat wp_step. norm_arith. split_and!; try done.
      * split; [solve_len|]. left. cbn. split_and!; [done|lia|done].
      * unfold_elements. apply take_S_insert. lia.
      * exists []. auto.
    + pose proof (capfunc_ge (sz + 1) StaticCapacity StaticCapacity).
      repeat wp_step. eapply wp_deref; [keep_reference Hadd|].
      repeat wp_step. norm_arith. rewrite Nat.add_1_r in *.
      split_and!; try done.
      * split; [solve_len|]. right. cbn. split_and!; [lia..|].
        eexists; split; [done|]. solve_len.
      * unfold_elements. rewrite take_S_insert by solve_len.
        rewrite take_overwrite' by solve_len. done.
      * eexists; split; [by rewrite <- app_assoc|]. right. log_region.
  - unfold push_back. repeat wp_step. unfold _reCap. repeat wp_step.
    destruct (decide (sz + 1 ≤ cap)).
    + repeat wp_step. eapply wp_deref; [keep_reference Hadd|].
      repeat wp_step. norm_arith. split_and!; try done.
      * split; [solve_len|]. right. cbn. split_and!; [lia..|].
        eexists; split; [done|]. solve_len.
      * unfold_elements. apply take_S_insert. lia.
      * exists []. auto.
    + pose proof (capfunc_ge (sz + 1) StaticCapacity cap).
      repeat wp_step. eapply wp_deref; [keep_reference Hadd|].
      repeat wp_step. norm_arith. rewrite Nat.add_1_r in *.
      split_and!; try done.
      * split; [solve_len|]. right. cbn. split_and!; [lia..|].
        eexists; split; [done|]. solve_len.
      * unfold_elements. rewrite take_S_insert by solve_len.
        rewrite take_overwrite' by solve_len. done.
      * eexists; split; [by rewrite <- app_assoc|]. right. log_region.
Qed.

Lemma take_take_le n m l : n ≤ m → take n (take m l) = take n l.
Proof. intros. rewrite take_take. f_equal. lia. Qed.

Lemma pop_back_spec f :
  wf (this f) →
  wp pop_back (λ _ f',
    wf (this f') ∧
    _size (this f') = _size (this f) - 1 ∧
    elements (this f') = take (_size (this f) - 1) (elements (this f)) ∧
    other f' = other f ∧
    ∃ log, reads f' = reads f ++ log ∧
      (log = [] ∧ _capacity (this f') = _capacity (this f) ∨
       log = Ptr (active_region This (this f)) <$> seq 0 (_size (this f) - 1) ∧
       _capacity (this f') ≠ _capacity (this f))) f.
Proof.
  intros Hwf. pose proof Hwf as Hwf0.
  destruct f as [[sz cap h st] o na rd fr]. unfold wf in Hwf0; simpl in Hwf0.
  unfold pop_back. repeat wp_step.
  destruct (decide (sz = 0)) as [->|Hnz].
  { repeat wp_step. split_and!; try done.
    exists []. rewrite app_nil_r. auto. }
  destruct Hwf0 as [Hst [(-> & Hsz & ->) | (Hcap & Hsz & Hle & h' & -> & Hh)]].
  - repeat wp_step. unfold _reCap. repeat wp_step. split_and!; try done.
    + split; [solve_len|]. left. cbn. split_and!; [done|lia|done].
    + unfold_elements. by rewrite take_take_le by lia.
    + exists []. rewrite app_nil_r. auto.
  - repeat wp_step. unfold _reCap. repeat wp_step.
    destruct (decide (sz - 1 > StaticCapacity)).
    + repeat wp_step. split_and!; try done.
      * split; [solve_len|]. right. cbn. split_and!; [lia..|].
        eexists; split; [done|]. solve_len.
      * unfold_elements. by rewrite take_take_le by lia.
      * exists []. rewrite app_nil_r. auto.
    + repeat wp_step. norm_arith. split_and!; try done.
      * split; [solve_len|]. left. cbn. split_and!; [done|lia|done].
      * unfold_elements.

        rewrite take_overwrite' by solve_len.
        by rewrite take_take_le by lia.
      * eexists; split; [done|]. right. log_region.
Qed.

Lemma clear_spec f :
  wf (this f) →
  wp clear (λ _ f',
    wf (this f') ∧
    _size (this f') = 0 ∧
    _capacity (this f') = StaticCapacity ∧
    heapArr (this f') = None ∧
    other f' = other f ∧
    reads f' = reads f) f.
Proof.
  intros Hwf. pose proof Hwf as Hwf0.
  destruct f as [[sz cap h st] o na rd fr]. unfold wf in Hwf0; simpl in Hwf0.
  unfold clear. repeat wp_step.
  destruct Hwf0 as [Hst [(-> & Hsz & ->) | (Hcap & Hsz & Hle & h' & -> & Hh)]].
  - destruct (decide (sz = 0)) as [->|Hnz]; repeat wp_step; [done|].
    unfold _reCap. repeat wp_step. split_and!; try done.
    split; [solve_len|]. left. cbn. split_and!; [done|lia|done].
  - repeat wp_step. unfold _reCap. repeat wp_step. norm_arith.
    rewrite overwrite_nil, app_nil_r. split_and!; try done.
    split; [solve_len|]. left. cbn. split_and!; [done|lia|done].
Qed.


(** ** Constructors *)

Lemma wf_default : wf VLVector_default.
Proof.
  split; [apply length_replicate|]. left. cbn. split_and!; [done|lia|done].
Qed.

(** The range constructor appends the values of the range, in order. *)
Lemma VLVector_range_spec xs : ∀ f,
  wf (this f) →
  wp (VLVector_range xs) (λ _ f',
    wf (this f') ∧
    _size (this f') = _size (this f) + length xs ∧
    elements (this f') = elements (this f) ++ xs ∧
    other f' = other f) f.
Proof.
  induction xs as [|x xs IH]; intros f Hwf; cbn [VLVector_range].
  - apply wp_ret. rewrite app_nil_r. auto with lia.
  - apply wp_bind.
    eapply wp_mono;
      [by apply (push_back_spec (Val x) x), survives_Val|].
    intros _ f1 (Hwf1 & Hsz1 & Hel1 & Hoth1 & _).
    eapply wp_mono; [by apply IH|].
    intros _ f2 (Hwf2 & Hsz2 & Hel2 & Hoth2). cbn [length].
    rewrite Hsz2, Hel2, Hsz1, Hel1, Hoth2, Hoth1, <- app_assoc.
    split_and!; auto with lia.
Qed.

Lemma construct_range xs :
  ∃ v, construct (VLVector_range xs) None = Some v ∧
    wf v ∧ _size v = length xs ∧ elements v = xs.
Proof.
  unfold construct.
  destruct (proj1 (wp_Returns _ _ _)
              (VLVector_range_spec xs (mkFrame VLVector_default None None [] 0)
                 wf_default))
    as ([] & f' & -> & Hwf & Hsz & Hel & _).
  exists (this f'). by rewrite Hsz, Hel.
Qed.

(** ** [insert] *)

Lemma array_active o f v :
  object o f = Some v → array (active_region o v) f = active v.
Proof.
  unfold active_region, active. intros Hv.
  case_decide; cbn [array]; by rewrite Hv.
Qed.

Lemma wf_active v :
  wf v →
  ∃ buf, active v = Some buf ∧ length buf = _capacity v ∧
    _size v ≤ length buf ∧ elements v = take (_size v) buf.
Proof.
  unfold wf, elements, active.
  intros [Hst [(Hc & Hsz & Hh) | (Hcap & Hsz & Hle & h' & Hh & Hlen)]].
  - rewrite decide_False by lia. exists (stackArr v). split_and!; auto with lia.
  - rewrite decide_True by lia. exists h'. rewrite Hh. split_and!; auto with lia.
Qed.

Lemma wp_declare_temp xs Q f :
  (∀ t, wf t → _size t = length xs → elements t = xs →
        Q () (mkFrame (this f) (Some t) (newArr f) (reads f) (released f))) →
  wp (declare_temp xs) Q f.
Proof.
  intros HQ. destruct (construct_range xs) as (t & Hc & Hwf & Hsz & Hel).
  eapply wp_eval; [unfold declare_temp; by rewrite Hc|]. by apply HQ.
Qed.

Lemma wp_temp_clear Q f t :
  other f = Some t → wf t →
  (∀ t', Q () (mkFrame (this f) (Some t') (newArr f) (reads f) (released f))) →
  wp (on_other clear) Q f.
Proof.
  intros Ht Hwf HQ. unfold wp, on_other. rewrite Ht.
  destruct (proj1 (wp_Returns _ _ _)
              (clear_spec (mkFrame t None None [] 0) Hwf))
    as ([] & f' & -> & _). apply HQ.
Qed.

(** Copying the whole of [temp] into another array. *)
Lemma wp_copy_temp r2 d Q f t dst :
  other f = Some t → wf t → array r2 f = Some dst →
  r2 = NewArr ∨ r2 = StackArr This →
  d + _size t ≤ length dst →
  Q () (mkFrame (this (with_array r2 (overwrite d (elements t) dst) f))
          (Some t)
          (newArr (with_array r2 (overwrite d (elements t) dst) f))
          (reads f ++ (Ptr (active_region Other t) <$> seq 0 (_size t)))
          (released f)) →
  wp (std_copy (Ptr (active_region Other t) 0)
        (Ptr (active_region Other t) (0 + _size t)) (Ptr r2 d)) Q f.
Proof.
  intros Ht Hwf Hdst Hr2 Hd HQ.
  destruct (wf_active t Hwf) as (buf & Hact & Hlen & Hsz & Hel).
  eapply wp_std_copy; [by rewrite (array_active Other f t)|done| |lia..|].
  - left. unfold active_region. case_decide; destruct Hr2; by subst.
  - norm_arith. rewrite <- Hel. revert HQ.
    destruct f as [v o na rd fr], Hr2 as [-> | ->]; cbn in Ht |- *; by subst.
Qed.

Lemma insert_overwrite p x l :
  p < length l → <[p:=x]> l = overwrite p [x] l.
Proof.
  intros. unfold overwrite. rewrite insert_take_drop by done.
  cbn [length app]. by rewrite Nat.add_1_r.
Qed.

Ltac solve_elements :=
  unfold_elements;
  rewrite ?insert_overwrite by solve_len;
  rewrite ?take_drop_commute;
  repeat (rewrite take_overwrite' by solve_len);
  rewrite ?take_take_le by lia;
  rewrite ?take_0; cbn [app]; rewrite <- ?app_assoc;
  repeat f_equal; lia.

Ltac wf_inline :=
  split; [solve_len|]; left; cbn [_size _capacity heapArr stackArr];
  split_and!; [done|lia|done].
Ltac wf_heap :=
  split; [solve_len|]; right; cbn [_size _capacity heapArr stackArr];
  split_and!; [lia..|]; eexists; split; [done|solve_len].

Lemma insert_range_spec p xs f :
  wf (this f) → p ≤ _size (this f) →
  wp (insert_range (iterator (this f) p) xs) (λ it f',
    wf (this f') ∧
    _size (this f') = _size (this f) + length xs ∧
    _capacity (this f') =
      capfunc (_size (this f) + length xs) StaticCapacity (_capacity (this f)) ∧
    elements (this f') =
      take p (elements (this f)) ++ xs ++ drop p (elements (this f)) ∧
    it = iterator (this f') (length xs)) f.
Proof.
  intros Hwf Hp. pose proof Hwf as Hwf0.
  destruct f as [[sz cap h st] o na rd fr]. unfold wf in Hwf0; cbn in Hwf0, Hp.
  unfold insert_range. apply wp_bind, wp_declare_temp.
  intros t Hwft Hszt Helt. frame_simpl.
  pose proof (capfunc_ge (sz + length xs) StaticCapacity cap) as Hcf.
  destruct Hwf0 as [Hst [(-> & Hsz & ->) | (Hcap & Hsz & Hle & h' & -> & Hh)]].
  - replace (iterator _ p) with (Ptr (StackArr This) p)
      by (unfold iterator, active_region; cbn; by rewrite decide_False by lia).
    repeat wp_step. rewrite Hszt.
    destruct (decide (sz + length xs > StaticCapacity)).
    + repeat wp_step.
      eapply wp_copy_temp; [reflexivity|done|reflexivity|by left|solve_len|].
      rewrite Hszt, Helt. frame_simpl. repeat wp_step.
      eapply wp_temp_clear; [reflexivity|done|]. intros t'. repeat wp_step.
      norm_arith. split_and!; try done.
      * wf_heap.
      * solve_elements.
      * unfold iterator, active_region. cbn. by rewrite decide_True by lia.
    + repeat wp_step.
      eapply wp_copy_temp; [reflexivity|done|reflexivity|by right|solve_len|].
      rewrite Hszt, Helt. frame_simpl. repeat wp_step.
      eapply wp_temp_clear; [reflexivity|done|]. intros t'. repeat wp_step.
      rewrite capfunc_inline by lia.
      norm_arith. split_and!; try done.
      * wf_inline.
      * solve_elements.
      * unfold iterator, active_region. cbn. by rewrite decide_False by lia.
  - replace (iterator _ p) with (Ptr (HeapArr This) p)
      by (unfold iterator, active_region; cbn; by rewrite decide_True by lia).
    repeat wp_step. rewrite Hszt. repeat wp_step.
    eapply wp_copy_temp; [reflexivity|done|reflexivity|by left|solve_len|].
    rewrite Hszt, Helt. frame_simpl. repeat wp_step.
    eapply wp_temp_clear; [reflexivity|done|]. intros t'. repeat wp_step.
    norm_arith. split_and!; try done.
    + wf_heap.
    + solve_elements.
    + unfold iterator, active_region. cbn. by rewrite decide_True by lia.
Qed.

Lemma insert_spec p x f :
  wf (this f) → p ≤ _size (this f) →
  wp (insert (iterator (this f) p) x) (λ it f',
    wf (this f') ∧
    _size (this f') = _size (this f) + 1 ∧
    _capacity (this f') =
      capfunc (_size (this f) + 1) StaticCapacity (_capacity (this f)) ∧
    elements (this f') =
      take p (elements (this f)) ++ [x] ++ drop p (elements (this f)) ∧
    it = iterator (this f') p ∧
    other f' = other f) f.
Proof.
  intros Hwf Hp. pose proof Hwf as Hwf0.
  destruct f as [[sz cap h st] o na rd fr]. unfold wf in Hwf0; cbn in Hwf0, Hp.
  unfold insert.
  pose proof (capfunc_ge (sz + 1) StaticCapacity cap) as Hcf.
  destruct Hwf0 as [Hst [(-> & Hsz & ->) | (Hcap & Hsz & Hle & h' & -> & Hh)]].
  - replace (iterator _ p) with (Ptr (StackArr This) p)
      by (unfold iterator, active_region; cbn; by rewrite decide_False by lia).
    repeat wp_step.
    destruct (decide (sz + 1 > StaticCapacity)).
    + repeat wp_step. norm_arith. rewrite Nat.add_1_r in *.
      split_and!; try done.
      * wf_heap.
      * solve_elements.
      * unfold iterator, active_region. cbn. by rewrite decide_True by lia.
    + repeat wp_step. rewrite capfunc_inline by lia.
      norm_arith. split_and!; try done.
      * wf_inline.
      * solve_elements.
      * unfold iterator, active_region. cbn. by rewrite decide_False by lia.
  - replace (iterator _ p) with (Ptr (HeapArr This) p)
      by (unfold iterator, active_region; cbn; by rewrite decide_True by lia).
    repeat wp_step. norm_arith. rewrite Nat.add_1_r in *.
    split_and!; try done.
    + wf_heap.
    + solve_elements.
    + unfold iterator, active_region. cbn. by rewrite decide_True by lia.
Qed.

(** ** [erase] *)

Lemma erase_range_spec a b f :
  wf (this f) → a ≤ b → b ≤ _size (this f) →
  wp (erase_range (iterator (this f) a) (iterator (this f) b)) (λ it f',
    wf (this f') ∧
    _size (this f') = _size (this f) - (b - a) ∧
    _capacity (this f') =
      capfunc (_size (this f) - (b - a)) StaticCapacity (_capacity (this f)) ∧
    elements (this f') =
      take a (elements (this f)) ++ drop b (elements (this f)) ∧
    it = iterator (this f') a ∧
    other f' = other f) f.
Proof.
  intros Hwf Hab Hb. pose proof Hwf as Hwf0.
  destruct f as [[sz cap h st] o na rd fr]. unfold wf in Hwf0; cbn in Hwf0, Hb.
  unfold erase_range.
  destruct Hwf0 as [Hst [(-> & Hsz & ->) | (Hcap & Hsz & Hle & h' & -> & Hh)]].
  - replace (iterator _ a) with (Ptr (StackArr This) a)
      by (unfold iterator, active_region; cbn; by rewrite decide_False by lia).
    replace (iterator _ b) with (Ptr (StackArr This) b)
      by (unfold iterator, active_region; cbn; by rewrite decide_False by lia).
    repeat wp_step. rewrite capfunc_inline by lia.
    norm_arith. split_and!; try done.
    + wf_inline.
    + solve_elements.
    + unfold iterator, active_region. cbn. by rewrite decide_False by lia.
  - replace (iterator _ a) with (Ptr (HeapArr This) a)
      by (unfold iterator, active_region; cbn; by rewrite decide_True by lia).
    replace (iterator _ b) with (Ptr (HeapArr This) b)
      by (unfold iterator, active_region; cbn; by rewrite decide_True by lia).
    repeat wp_step.
    destruct (decide (sz - (b - a) ≤ StaticCapacity)).
    + repeat wp_step. rewrite capfunc_inline by lia.
      norm_arith. split_and!; try done.
      * wf_inline.
      * solve_elements.
      * unfold iterator, active_region. cbn. by rewrite decide_False by lia.
    + repeat wp_step. rewrite capfunc_keep by lia.
      norm_arith. split_and!; try done.
      * wf_heap.
      * solve_elements.
      * unfold iterator, active_region. cbn. by rewrite decide_True by lia.
Qed.

(** ** The invariant *)

Lemma elements_length v : wf v → length (elements v) = _size v.
Proof.
  intros Hwf. destruct (wf_active v Hwf) as (buf & _ & _ & Hsz & ->).
  by apply length_take_le.
Qed.

Lemma wf_storage_invariant v : wf v → storage_invariant v.
Proof.
  unfold wf, storage_invariant, inline, on_heap.
  intros [Hst [(Hc & Hsz & Hh) | (Hcap & Hsz & Hle & h' & Hh & Hlen)]].
  - split_and!; try lia; try done.
  - split_and!; try lia. intros _. exists h'. split_and!; [done..|lia].
Qed.

(** ** Element access *)

Lemma subscript_Returns o idx f v :
  object o f = Some v →
  subscript o idx f = Returns (Ptr (active_region o v) idx) f.
Proof.
  intros Hv. unfold subscript, active_region.
  erewrite bind_Returns by (unfold get; by rewrite Hv).
  by case_decide.
Qed.

Lemma at_in_range idx f :
  idx < _size (this f) → at_ idx f = subscript This idx f.
Proof.
  intros. unfold at_. erewrite bind_Returns by reflexivity.
  by rewrite decide_True.
Qed.

Lemma at_out_of_range idx f :
  _size (this f) ≤ idx →
  at_ idx f = Throws (out_of_range "index out of range") f.
Proof.
  intros. unfold at_. erewrite bind_Returns by reflexivity.
  by rewrite decide_False by lia.
Qed.

Lemma load_element idx f :
  wf (this f) → idx < _size (this f) →
  ∃ x, elements (this f) !! idx = Some x ∧
    load (iterator (this f) idx) f = Returns x (log (iterator (this f) idx) f).
Proof.
  intros Hwf Hidx. destruct (wf_active _ Hwf) as (buf & Hact & _ & Hsz & Hel).
  destruct (lookup_lt_is_Some_2 buf idx) as [x Hx]; [lia|].
  exists x. split.
  - by rewrite Hel, lookup_take_lt.
  - eapply load_Returns; [|done]. cbn [iterator base].
    by rewrite (array_active This f).
Qed.

(** ** Copy construction *)

Lemma read_loop_spec n : ∀ r s f buf,
  array r f = Some buf → s + n ≤ length buf →
  wp (read_loop n (Ptr r s)) (λ xs f',
    xs = take n (drop s buf) ∧ this f' = this f ∧ other f' = other f) f.
Proof.
  induction n as [|n IH]; intros r s f buf Hbuf Hs; cbn [read_loop].
  - by apply wp_ret.
  - destruct (lookup_lt_is_Some_2 buf s) as [x Hx]; [lia|].
    apply wp_bind. eapply wp_eval; [by eapply (load_Returns (Ptr r s))|].
    apply wp_bind. unfold ptr_add; cbn [base off]. rewrite Nat.add_1_r.
    eapply wp_mono; [apply (IH r (S s) _ buf); [by rewrite array_log|lia]|].
    intros xs f' (-> & Hthis & Hoth). apply wp_ret.
    by rewrite (drop_S _ _ _ Hx).
Qed.

Lemma VLVector_copy_spec f u :
  other f = Some u → wf u → wf (this f) →
  wp VLVector_copy (λ _ f',
    wf (this f') ∧
    _size (this f') = _size (this f) + _size u ∧
    elements (this f') = elements (this f) ++ elements u) f.
Proof.
  intros Hu Hwfu Hwf.
  destruct (wf_active u Hwfu) as (buf & Hact & _ & Hsz & Hel).
  unfold VLVector_copy. apply wp_bind. eapply wp_begin; [done|].
  apply wp_bind. unfold end_. apply wp_bind. eapply wp_begin; [done|].
  apply wp_bind. eapply wp_get; [done|]. apply wp_ret.
  unfold ptr_add; cbn [base off]. apply wp_bind.
  unfold read_range. apply wp_bind.
  eapply wp_ptr_diff; [done|cbn [off]; lia|]. cbn [off].
  eapply wp_mono;
    [eapply read_loop_spec; [by rewrite (array_active Other f u)|lia]|].
  intros xs f1 (-> & Hthis & Hoth). cbv beta.
  eapply wp_mono; [apply VLVector_range_spec; by rewrite Hthis|].
  intros _ f2 (Hwf2 & Hsz2 & Hel2 & _).
  rewrite Hsz2, Hel2, Hthis, Hel. rewrite Nat.sub_0_r, drop_0.
  rewrite length_take_le by lia. done.
Qed.

Lemma construct_copy u :
  wf u →
  ∃ v, construct VLVector_copy (Some u) = Some v ∧
    wf v ∧ _size v = _size u ∧ elements v = elements u.
Proof.
  intros Hwfu. unfold construct.
  destruct (proj1 (wp_Returns _ _ _)
              (VLVector_copy_spec (mkFrame VLVector_default (Some u) None [] 0)
                 u eq_refl Hwfu wf_default))
    as ([] & f' & -> & Hwf & Hsz & Hel).
  exists (this f'). done.
Qed.

(** ** Every public operation keeps the representation invariant *)

Lemma completes_wp {A} (m : M T A) f :
  wp m (λ _ f', wf (this f')) f → ∃ v', completes (m f) v' ∧ wf v'.
Proof.
  unfold wp, completes. destruct (m f) as [a f'|e f'|]; [|done..].
  intros. by exists (this f').
Qed.

Lemma completes_inj {A} (out : outcome T A) v1 v2 :
  completes out v1 → completes out v2 → v1 = v2.
Proof. destruct out; cbn; intros; by simplify_eq. Qed.

Lemma perform_completes o v :
  wf v → valid_args o v →
  ∃ v', completes (perform o (frame_of v)) v' ∧ wf v'.
Proof.
  intros Hwf Hargs. set (f := frame_of v). change (wf (this f)) in Hwf.
  destruct o as [add| | |p x|p xs|p|a b|idx]; cbn [perform valid_args] in *.
  { destruct Hargs as [[x Hx] Hsafe]. apply completes_wp.
    eapply wp_mono; [by apply (push_back_spec add x)|]. by intros ? ? [? _]. }
  all: change v with (this f) in Hargs |- *; clearbody f.
  - apply completes_wp. eapply wp_mono; [by apply pop_back_spec|].
    by intros ? ? [? _].
  - apply completes_wp. eapply wp_mono; [by apply clear_spec|].
    by intros ? ? [? _].
  - apply completes_wp. apply wp_bind. eapply wp_begin; [done|].
    change (ptr_add _ p) with (iterator (this f) p). apply wp_bind.
    eapply wp_mono; [by apply insert_spec|].
    intros it f' (? & _). by apply wp_ret.
  - apply completes_wp. apply wp_bind. eapply wp_begin; [done|].
    change (ptr_add _ p) with (iterator (this f) p). apply wp_bind.
    eapply wp_mono; [by apply insert_range_spec|].
    intros it f' (? & _). by apply wp_ret.
  - apply completes_wp. apply wp_bind. eapply wp_begin; [done|].
    change (ptr_add _ p) with (iterator (this f) p). apply wp_bind.
    unfold erase.
    replace (ptr_add (iterator (this f) p) 1) with (iterator (this f) (p + 1))
      by done.
    eapply wp_mono; [apply erase_range_spec; [done|lia..]|].
    intros it f' (? & _). by apply wp_ret.
  - apply completes_wp. apply wp_bind. eapply wp_begin; [done|].
    change (ptr_add _ a) with (iterator (this f) a).
    change (ptr_add _ b) with (iterator (this f) b). apply wp_bind.
    eapply wp_mono; [apply erase_range_spec; [done|lia..]|].
    intros it f' (? & _). by apply wp_ret.
  - exists (this f). split; [|done]. unfold mbind, M_bind.
    destruct (decide (idx < _size (this f))).
    + rewrite at_in_range by done.
      by erewrite subscript_Returns by reflexivity.
    + by rewrite at_out_of_range by lia.
Qed.

Lemma reachable_wf v : reachable v → wf v.
Proof.
  induction 1 as [|xs v Hc|u v _ IH Hc|o v v' _ IH Hargs Hdone].
  - apply wf_default.
  - destruct (construct_range xs) as (v0 & Hc0 & Hwf & _). congruence.
  - destruct (construct_copy u IH) as (v0 & Hc0 & Hwf & _). congruence.
  - destruct (perform_completes o v IH Hargs) as (v0 & Hdone0 & Hwf).
    by rewrite (completes_inj _ _ _ Hdone Hdone0).
Qed.

(** On machine integers the call computes [capfunc], as long as the static
    capacity fits an [int] and the product a [size_t]. *)
Lemma capfunc_word_agrees (s N c : nat) :
  (Z.of_nat N < 2 ^ 31)%Z → (3 * Z.of_nat s < 2 ^ 64)%Z → (Z.of_nat c < 2 ^ 64)%Z →
  Word.capfunc_call (Z.of_nat s) (Z.of_nat N) (Z.of_nat c) = Z.of_nat (capfunc s N c).
Proof.
  intros HN Hs Hc. unfold Word.capfunc_call, Word.capfunc_word, capfunc.
  assert (Word.int_of (Z.of_nat N) = Z.of_nat N) as ->.
  { unfold Word.int_of. rewrite Z.mod_small by lia. lia. }
  assert (Word.size_t_of (Z.of_nat N) = Z.of_nat N) as ->.
  { unfold Word.size_t_of. apply Z.mod_small. lia. }
  assert (Word.size_t_of (3 * Z.of_nat s) = Z.of_nat (3 * s)) as ->.
  { unfold Word.size_t_of. rewrite Z.mod_small by lia. lia. }
  destruct (Nat.leb_spec s N), (Z.leb_spec (Z.of_nat s) (Z.of_nat N)); try lia.
  destruct (Nat.leb_spec s c), (Z.leb_spec (Z.of_nat s) (Z.of_nat c)); try lia.
  symmetry. apply (Nat2Z.inj_div (3 * s) 2).
Qed.

Lemma capfunc_wf v :
  wf v → capfunc (_size v) StaticCapacity (_capacity v) = _capacity v.
Proof.
  intros [_ [(-> & ? & _) | (? & ? & ? & _)]].
  - by apply capfunc_inline.
  - by apply capfunc_keep.
Qed.

Lemma capfunc_gt s N c : N < s → N < capfunc s N c.
Proof. pose proof (capfunc_ge s N c). lia. Qed.

(** ** What [_reCap] copies *)

Ltac active_simpl :=
  unfold active, active_region; cbn [_size _capacity heapArr stackArr this];
  repeat first [rewrite decide_True by lia | rewrite decide_False by lia].

Lemma push_back_reCap_copies f :
  wf (this f) →
  wp push_back_reCap (λ _ f',
    _size (this f') = _size (this f) + 1 ∧ copied_min_of_sizes f f') f.
Proof.
  intros Hwf. pose proof Hwf as Hwf0.
  destruct f as [[sz cap h st] o na rd fr]. unfold wf in Hwf0; simpl in Hwf0.
  unfold copied_min_of_sizes, destination.
  destruct Hwf0 as [Hst [(-> & Hsz & ->) | (Hcap & Hsz & Hle & h' & -> & Hh)]].
  - repeat wp_step. unfold _reCap. repeat wp_step.
    destruct (decide (sz + 1 ≤ StaticCapacity)).
    + repeat wp_step. split; [lia|]. exists []. rewrite app_nil_r. auto.
    + pose proof (capfunc_ge (sz + 1) StaticCapacity StaticCapacity).
      repeat wp_step. norm_arith. rewrite Nat.add_1_r in *. split; [lia|].
      eexists; split; [done|]. right.
      rewrite Nat.min_l by lia. active_simpl.
      split_and!; [lia|done|]. by eexists _, _.
  - repeat wp_step. unfold _reCap. repeat wp_step.
    destruct (decide (sz + 1 ≤ cap)).
    + repeat wp_step. split; [lia|]. exists []. rewrite app_nil_r. auto.
    + pose proof (capfunc_ge (sz + 1) StaticCapacity cap).
      repeat wp_step. norm_arith. rewrite Nat.add_1_r in *. split; [lia|].
      eexists; split; [done|]. right.
      rewrite Nat.min_l by lia. active_simpl.
      split_and!; [lia|done|]. by eexists _, _.
Qed.

Lemma pop_back_copies f :
  wf (this f) →
  wp pop_back (λ _ f',
    _size (this f') = _size (this f) - 1 ∧ copied_min_of_sizes f f') f.
Proof.
  intros Hwf. pose proof Hwf as Hwf0.
  destruct f as [[sz cap h st] o na rd fr]. unfold wf in Hwf0; simpl in Hwf0.
  unfold copied_min_of_sizes, destination.
  unfold pop_back. repeat wp_step.
  destruct (decide (sz = 0)) as [->|Hnz].
  { repeat wp_step. split; [done|]. exists []. rewrite app_nil_r. auto. }
  destruct Hwf0 as [Hst [(-> & Hsz & ->) | (Hcap & Hsz & Hle & h' & -> & Hh)]].
  - repeat wp_step. unfold _reCap. repeat wp_step. split; [done|].
    exists []. rewrite app_nil_r. auto.
  - repeat wp_step. unfold _reCap. repeat wp_step.
    destruct (decide (sz - 1 > StaticCapacity)).
    + repeat wp_step. split; [done|]. exists []. rewrite app_nil_r. auto.
    + repeat wp_step. norm_arith. split; [done|].
      eexists; split; [done|]. right.
      rewrite Nat.min_r by lia. active_simpl.
      split_and!; [lia|done|]. by eexists _, _.
Qed.

Lemma clear_copies f :
  wf (this f) →
  wp clear (λ _ f',
    _size (this f') = 0 ∧ copied_min_of_sizes f f') f.
Proof.
  intros Hwf. pose proof Hwf as Hwf0.
  destruct f as [[sz cap h st] o na rd fr]. unfold wf in Hwf0; simpl in Hwf0.
  unfold copied_min_of_sizes, destination.
  unfold clear. repeat wp_step.
  destruct Hwf0 as [Hst [(-> & Hsz & ->) | (Hcap & Hsz & Hle & h' & -> & Hh)]].
  - destruct (decide (sz = 0)) as [->|Hnz]; repeat wp_step.
    { split; [done|]. exists []. rewrite app_nil_r. auto. }
    unfold _reCap. repeat wp_step. split; [done|].
    exists []. rewrite app_nil_r. auto.
  - repeat wp_step. unfold _reCap. repeat wp_step. norm_arith.
    split; [done|]. eexists; split; [done|]. right.
    rewrite Nat.min_r by lia. active_simpl.
    split_and!; [lia|done|]. by eexists _, _.
Qed.

(** [push_back] is its two steps, one after the other. *)
Lemma push_back_steps add f f1 :
  push_back_reCap f = Returns () f1 →
  push_back add f = push_back_assign add f1.
Proof. intros Hrun. unfold push_back. by rewrite (bind_Returns _ _ _ _ _ Hrun). Qed.

(** ** The claims *)

(** C3. [insert] keeps the elements before [position] where they are,
    places the new elements next, in their order, and moves the elements
    from [position] on behind them; the size grows by the number of new
    elements.  This is so for the range form and for the single-element
    form, whether the container is on the heap already, moves there
    because the new size exceeds [StaticCapacity], or stays inline. *)
Theorem insert_splices_at_position f p xs x :
  wf (this f) → p ≤ _size (this f) →
  (∃ it f',
     insert_range (iterator (this f) p) xs f = Returns it f' ∧
     elements (this f') =
       take p (elements (this f)) ++ xs ++ drop p (elements (this f)) ∧
     _size (this f') = _size (this f) + length xs ∧
     (on_heap (this f) ∨ _size (this f) + length xs > StaticCapacity →
      on_heap (this f')) ∧
     (inline (this f) ∧ _size (this f) + length xs ≤ StaticCapacity →
      inline (this f'))) ∧
  (∃ it f',
     insert (iterator (this f) p) x f = Returns it f' ∧
     elements (this f') =
       take p (elements (this f)) ++ [x] ++ drop p (elements (this f)) ∧
     _size (this f') = _size (this f) + 1 ∧
     (on_heap (this f) ∨ _size (this f) + 1 > StaticCapacity →
      on_heap (this f')) ∧
     (inline (this f) ∧ _size (this f) + 1 ≤ StaticCapacity →
      inline (this f'))).
Proof.
  intros Hwf Hp.
  assert (Hheap : ∀ k, on_heap (this f) ∨ _size (this f) + k > StaticCapacity →
            StaticCapacity < _size (this f) + k).
  { intros k [Hh|]; [|lia]. unfold on_heap in Hh.
    destruct Hwf as [_ [(? & _) | (_ & ? & _)]]; lia. }
  split.
  - destruct (proj1 (wp_Returns _ _ _) (insert_range_spec p xs f Hwf Hp))
      as (it & f' & Hrun & _ & Hsz & Hcap & Hel & _).
    exists it, f'. unfold on_heap, inline. rewrite Hcap.
    split_and!; try done.
    + intros Hk. by apply capfunc_gt, Hheap.
    + intros [_ Hk]. by apply capfunc_inline.
  - destruct (proj1 (wp_Returns _ _ _) (insert_spec p x f Hwf Hp))
      as (it & f' & Hrun & _ & Hsz & Hcap & Hel & _).
    exists it, f'. unfold on_heap, inline. rewrite Hcap.
    split_and!; try done.
    + intros Hk. by apply capfunc_gt, Hheap.
    + intros [_ Hk]. by apply capfunc_inline.
Qed.

(** C4. [erase(first, last)] removes exactly the elements of
    [[first, last)]: those before [first] stay, those from [last] on move
    down, and the size drops by [last - first].  The container is inline
    afterwards when the new size fits [StaticCapacity] and on the heap
    otherwise.  [erase(it)] is [erase(it, it + 1)]. *)
Theorem erase_removes_range f a b c :
  wf (this f) → a ≤ b → b ≤ _size (this f) → c < _size (this f) →
  (∃ it f',
     erase_range (iterator (this f) a) (iterator (this f) b) f = Returns it f' ∧
     elements (this f') =
       take a (elements (this f)) ++ drop b (elements (this f)) ∧
     _size (this f') = _size (this f) - (b - a) ∧
     (_size (this f) - (b - a) ≤ StaticCapacity → inline (this f')) ∧
     (_size (this f) - (b - a) > StaticCapacity → on_heap (this f'))) ∧
  (∃ it f',
     erase (iterator (this f) c) f = Returns it f' ∧
     erase_range (iterator (this f) c) (iterator (this f) (c + 1)) f
       = Returns it f' ∧
     elements (this f') =
       take c (elements (this f)) ++ drop (c + 1) (elements (this f)) ∧
     _size (this f') = _size (this f) - 1).
Proof.
  intros Hwf Hab Hb Hc. split.
  - destruct (proj1 (wp_Returns _ _ _) (erase_range_spec a b f Hwf Hab Hb))
      as (it & f' & Hrun & _ & Hsz & Hcap & Hel & _).
    exists it, f'. unfold on_heap, inline. rewrite Hcap.
    split_and!; try done.
    + intros Hk. by apply capfunc_inline.
    + intros Hk. by apply capfunc_gt.
  - destruct (proj1 (wp_Returns _ _ _)
                (erase_range_spec c (c + 1) f Hwf ltac:(lia) ltac:(lia)))
      as (it & f' & Hrun & _ & Hsz & _ & Hel & _).
    exists it, f'. split_and!; try done. rewrite Hsz. f_equal. lia.
Qed.

(** C5. Each of the three mutations that change the size by calling
    [_reCap] does the following when the call moves the elements to another
    array: it reads the first [min prevSize size] slots of the array the
    elements were in, each once and in order, and no other slot; and the
    array the elements are in afterwards is the destination with these
    values copied over its first [min prevSize size] slots.  When the
    elements stay where they are, nothing is read.  For [push_back] this is
    the state in which [_reCap] returns, whatever the argument is; what is
    left of [push_back] is the assignment of the new element. *)
Theorem transition_copies_min_of_sizes f :
  wf (this f) →
  (∃ f', push_back_reCap f = Returns () f' ∧
     (∀ add, push_back add f = push_back_assign add f') ∧
     _size (this f') = _size (this f) + 1 ∧ copied_min_of_sizes f f') ∧
  (∃ f', pop_back f = Returns () f' ∧
     _size (this f') = _size (this f) - 1 ∧ copied_min_of_sizes f f') ∧
  (∃ f', clear f = Returns () f' ∧
     _size (this f') = 0 ∧ copied_min_of_sizes f f').
Proof.
  intros Hwf. split_and!.
  - destruct (proj1 (wp_Returns _ _ _) (push_back_reCap_copies f Hwf))
      as ([] & f' & Hrun & Hsz & Hcopied).
    exists f'. split_and!; [done| |done..].
    intros add. by apply push_back_steps.
  - destruct (proj1 (wp_Returns _ _ _) (pop_back_copies f Hwf))
      as ([] & f' & Hrun & Hsz & Hcopied).
    by exists f'.
  - destruct (proj1 (wp_Returns _ _ _) (clear_copies f Hwf))
      as ([] & f' & Hrun & Hsz & Hcopied).
    by exists f'.
Qed.

(** C6. A container that the constructors and the public operations can
    produce has capacity at least [StaticCapacity]; it is inline, with
    capacity [StaticCapacity], exactly when its size is at most
    [StaticCapacity], and on the heap, with the elements inside the heap
    array, exactly when its size is larger.  So the test
    [_size <= StaticCapacity] of [erase] picks the array that [begin()]
    points into.  Every public operation completes on such a container
    and produces such a container, provided its iterators are valid and
    the reference given to [push_back] is still bound when it is read. *)
Theorem reachable_storage_invariant v :
  reachable v →
  storage_invariant v ∧
  (_size v ≤ StaticCapacity ↔ active_region This v = StackArr This) ∧
  (∀ o, valid_args o v →
     ∃ v', completes (perform o (frame_of v)) v' ∧
           reachable v' ∧ storage_invariant v').
Proof.
  intros Hreach. pose proof (reachable_wf v Hreach) as Hwf.
  pose proof (wf_storage_invariant v Hwf) as Hinv. split_and!; [done| |].
  - destruct Hinv as (_ & Hin & Hheap & _). unfold active_region.
    unfold inline, on_heap in *. case_decide; split; intros; try done; lia.
  - intros o Hargs.
    destruct (perform_completes o v Hwf Hargs) as (v' & Hdone & Hwf').
    exists v'. split_and!; [done| |by apply wf_storage_invariant].
    by eapply reach_step.
Qed.

(** C7, as the code has it. [at(idx)] throws [std::out_of_range] exactly
    when [idx >= size], with the fixed message "index out of range"; for
    [idx < size] it returns the reference [operator[]] returns.  Either way
    it leaves the container as it was. *)
Theorem at_checks_the_index idx f :
  at_ idx f =
    (if decide (idx < _size (this f))
     then Returns (iterator (this f) idx) f
     else Throws (out_of_range "index out of range") f) ∧
  subscript This idx f = Returns (iterator (this f) idx) f.
Proof.
  split; [|by apply subscript_Returns].
  case_decide.
  - rewrite at_in_range by done. by apply subscript_Returns.
  - apply at_out_of_range. lia.
Qed.

(** C9. Erasing an empty range and inserting an empty range leave size,
    capacity and elements as they were. *)
Theorem empty_range_edits_change_nothing f p :
  wf (this f) → p ≤ _size (this f) →
  (∃ it f',
     erase_range (iterator (this f) p) (iterator (this f) p) f = Returns it f' ∧
     _size (this f') = _size (this f) ∧
     _capacity (this f') = _capacity (this f) ∧
     elements (this f') = elements (this f)) ∧
  (∃ it f',
     insert_range (iterator (this f) p) [] f = Returns it f' ∧
     _size (this f') = _size (this f) ∧
     _capacity (this f') = _capacity (this f) ∧
     elements (this f') = elements (this f)).
Proof.
  intros Hwf Hp. split.
  - destruct (proj1 (wp_Returns _ _ _)
                (erase_range_spec p p f Hwf ltac:(lia) Hp))
      as (it & f' & Hrun & _ & Hsz & Hcap & Hel & _).
    exists it, f'. rewrite Hsz, Hcap, Hel, Nat.sub_diag, Nat.sub_0_r.
    split_and!; [done..|by apply capfunc_wf|by apply take_drop].
  - destruct (proj1 (wp_Returns _ _ _) (insert_range_spec p [] f Hwf Hp))
      as (it & f' & Hrun & _ & Hsz & Hcap & Hel & _).
    exists it, f'. rewrite Hsz, Hcap, Hel. cbn [length app].
    rewrite Nat.add_0_r.
    split_and!; [done..|by apply capfunc_wf|by apply take_drop].
Qed.

(** C10. [push_back(x)] followed by [pop_back()] gives back the size and
    the elements the container had.  This is so for every value [x] that
    is passed as an object of the caller's, and for every reference into
    the container or another one that is still bound when [push_back] reads
    it: any reference but one into the receiver's heap block when that
    block is full. *)
Theorem push_back_pop_back_restores f :
  wf (this f) →
  (∀ x, ∃ f', (push_back (Val x);; pop_back) f = Returns () f' ∧
     _size (this f') = _size (this f) ∧
     elements (this f') = elements (this f)) ∧
  (∀ add x, refers add f x → survives_push_back add (this f) →
     ∃ f', (push_back add;; pop_back) f = Returns () f' ∧
       _size (this f') = _size (this f) ∧
       elements (this f') = elements (this f)).
Proof.
  intros Hwf.
  assert (Hboth : ∀ add x, refers add f x → survives_push_back add (this f) →
            ∃ f', (push_back add;; pop_back) f = Returns () f' ∧
              _size (this f') = _size (this f) ∧
              elements (this f') = elements (this f)).
  { intros add x Hadd Hsafe.
    destruct (proj1 (wp_Returns _ _ _) (push_back_spec add x f Hwf Hadd Hsafe))
      as ([] & f1 & Hpush & Hwf1 & Hsz1 & Hel1 & _).
    destruct (proj1 (wp_Returns _ _ _) (pop_back_spec f1 Hwf1))
      as ([] & f2 & Hpop & _ & Hsz2 & Hel2 & _).
    exists f2.
    rewrite (bind_Returns _ _ _ _ _ Hpush), Hpop, Hsz2, Hel2, Hsz1, Hel1.
    cbn [Nat.sub]. rewrite Nat.sub_0_r.
    split_and!; [done..|]. apply take_app_length'. by rewrite elements_length. }
  split; [|done].
  intros x. apply (Hboth (Val x) x); [done|apply survives_Val].
Qed.

(** * Further properties of the code *)

(** ** Capacity after [push_back] and [pop_back] *)

Lemma push_back_capacity add x f :
  wf (this f) → refers add f x → survives_push_back add (this f) →
  wp (push_back add) (λ _ f',
    _capacity (this f') =
      capfunc (_size (this f) + 1) StaticCapacity (_capacity (this f))) f.
Proof.
  intros Hwf Hadd Hsafe. pose proof Hwf as Hwf0.
  destruct f as [[sz cap h st] o na rd fr]. unfold wf in Hwf0; simpl in Hwf0.
  destruct Hwf0 as [Hst [(-> & Hsz & ->) | (Hcap & Hsz & Hle & h' & -> & Hh)]].
  - unfold push_back. repeat wp_step. unfold _reCap. repeat wp_step.
    destruct (decide (sz + 1 ≤ StaticCapacity)).
    + repeat wp_step. eapply wp_deref; [keep_reference Hadd|].
      repeat wp_step. by rewrite capfunc_inline.
    + pose proof (capfunc_ge (sz + 1) StaticCapacity StaticCapacity).
      repeat wp_step. eapply wp_deref; [keep_reference Hadd|].
      repeat wp_step. done.
  - unfold push_back. repeat wp_step. unfold _reCap. repeat wp_step.
    destruct (decide (sz + 1 ≤ cap)).
    + repeat wp_step. eapply wp_deref; [keep_reference Hadd|].
      repeat wp_step. by rewrite capfunc_keep by lia.
    + pose proof (capfunc_ge (sz + 1) StaticCapacity cap).
      repeat wp_step. eapply wp_deref; [keep_reference Hadd|].
      repeat wp_step. done.
Qed.

(** A full heap block is released by the first step of [push_back]. *)
Lemma push_back_reCap_releases f :
  wf (this f) → on_heap (this f) → _size (this f) = _capacity (this f) →
  wp push_back_reCap (λ _ f',
    released f' = S (released f) ∧ on_heap (this f')) f.
Proof.
  intros Hwf Hheap Hfull. pose proof Hwf as Hwf0.
  destruct f as [[sz cap h st] o na rd fr]. unfold wf in Hwf0; simpl in Hwf0.
  unfold on_heap in *. cbn in Hheap, Hfull. subst cap.
  destruct Hwf0 as [Hst [(-> & Hsz & ->) | (Hcap & _ & Hle & h' & -> & Hh)]];
    [lia|].
  pose proof (capfunc_ge (sz + 1) StaticCapacity sz).
  repeat wp_step. unfold _reCap. repeat wp_step. split; [done|]. cbn. lia.
Qed.

Lemma pop_back_capacity f :
  wf (this f) →
  wp pop_back (λ _ f',
    _capacity (this f') =
      capfunc (_size (this f) - 1) StaticCapacity (_capacity (this f))) f.
Proof.
  intros Hwf. pose proof Hwf as Hwf0.
  destruct f as [[sz cap h st] o na rd fr]. unfold wf in Hwf0; simpl in Hwf0.
  unfold pop_back. repeat wp_step.
  destruct Hwf0 as [Hst [(-> & Hsz & ->) | (Hcap & Hsz & Hle & h' & -> & Hh)]].
  - destruct (decide (sz = 0)) as [->|Hnz]; repeat wp_step.
    + by rewrite capfunc_inline by lia.
    + unfold _reCap. repeat wp_step. by rewrite capfunc_inline by lia.
  - repeat wp_step. unfold _reCap. repeat wp_step.
    destruct (decide (sz - 1 > StaticCapacity)).
    + repeat wp_step. by rewrite capfunc_keep by lia.
    + repeat wp_step. by rewrite capfunc_inline by lia.
Qed.

(** Two runs of one computation from one frame end alike. *)
Lemma wp_conj {A} (m : M T A) (P Q : A → frame T → Prop) f :
  wp m P f → wp m Q f → wp m (λ a f', P a f' ∧ Q a f') f.
Proof. unfold wp. destruct (m f); tauto. Qed.

(** ** [operator==] and [operator!=] *)

Lemma load_active o f v idx :
  object o f = Some v → wf v → idx < _size v →
  ∃ x, elements v !! idx = Some x ∧
    load (Ptr (active_region o v) idx) f
      = Returns x (log (Ptr (active_region o v) idx) f).
Proof.
  intros Hv Hwf Hidx. destruct (wf_active _ Hwf) as (buf & Hact & _ & Hsz & Hel).
  destruct (lookup_lt_is_Some_2 buf idx) as [x Hx]; [lia|].
  exists x. split.
  - by rewrite Hel, lookup_take_lt.
  - eapply load_Returns; [|done]. cbn [base].
    by rewrite (array_active o f v).
Qed.

Section equality.
Context `{!EqDecision T}.

Lemma eq_loop_spec n : ∀ i f b,
  other f = Some b → wf (this f) → wf b →
  i + n ≤ _size (this f) → i + n ≤ _size b →
  wp (eq_loop n i) (λ res f',
    res = bool_decide (take n (drop i (elements (this f)))
                       = take n (drop i (elements b))) ∧
    this f' = this f ∧ other f' = Some b) f.
Proof.
  induction n as [|n IH]; intros i f b Hb Hwfa Hwfb Hia Hib; cbn [eq_loop].
  - apply wp_ret. by rewrite !take_0.
  - destruct (load_active This f (this f) i) as (x & Hx & Hloadx);
      [done|done|lia|].
    destruct (load_active Other (log (Ptr (active_region This (this f)) i) f) b i)
      as (y & Hy & Hloady); [done|done|lia|].
    apply wp_bind, wp_bind.
    eapply wp_eval; [by apply subscript_Returns|].
    eapply wp_eval; [exact Hloadx|].
    apply wp_bind, wp_bind.
    eapply wp_eval; [by apply subscript_Returns|].
    eapply wp_eval; [exact Hloady|].
    rewrite (drop_S _ _ _ Hx), (drop_S _ _ _ Hy). cbn [take].
    case_decide as Hxy.
    + apply wp_ret. split; [|done].
      rewrite bool_decide_false; [done|]. by intros [= ? _].
    + subst y.
      eapply wp_mono; [apply (IH (S i) _ b); try done; cbn; lia|].
      intros res f' (Hres & ? & ?). cbn [log this] in Hres. subst res.
      split; [|done].
      apply bool_decide_ext. split; [by intros ->|by intros [= ->]].
Qed.

Lemma operator_eq_spec f b :
  other f = Some b → wf (this f) → wf b →
  wp operator_eq (λ res f',
    res = bool_decide (elements (this f) = elements b) ∧
    this f' = this f ∧ other f' = other f) f.
Proof.
  intros Hb Hwfa Hwfb. unfold operator_eq.
  apply wp_bind. eapply wp_get; [done|].
  apply wp_bind. eapply wp_get; [done|]. cbv beta.
  pose proof (elements_length _ Hwfa) as Hla.
  pose proof (elements_length _ Hwfb) as Hlb.
  case_decide as Hsz.
  - apply wp_ret. split; [|done].
    rewrite bool_decide_false; [done|]. intros Heq. congruence.
  - eapply wp_mono; [apply (eq_loop_spec _ 0 f b); try done; lia|].
    intros res f' (-> & ? & ?). rewrite Hb. split; [|done].
    rewrite !drop_0, !take_ge by lia. done.
Qed.

End equality.

(** ** Statements about single operations *)

(** X2. [push_back(x)] puts [x] behind the elements and leaves them as they
    were, and the size grows by one.  The argument is a reference: [x] is
    what it holds when the call is made, and it has to be bound still when
    it is read, which excludes a reference into the receiver's own heap
    block when that block is full.  The capacity stays when the new size
    fits it; where the sizes fit their machine types it is what [capfunc]
    answers on machine integers for the new size. *)
Theorem push_back_appends f add x :
  wf (this f) → refers add f x → survives_push_back add (this f) →
  ∃ f', push_back add f = Returns () f' ∧
    elements (this f') = elements (this f) ++ [x] ∧
    _size (this f') = _size (this f) + 1 ∧
    (_size (this f) + 1 ≤ _capacity (this f) →
     _capacity (this f') = _capacity (this f)) ∧
    ((Z.of_nat StaticCapacity < 2 ^ 31)%Z →
     (3 * Z.of_nat (_size (this f) + 1) < 2 ^ 64)%Z →
     (Z.of_nat (_capacity (this f)) < 2 ^ 64)%Z →
     Z.of_nat (_capacity (this f')) =
       Word.capfunc_call (Z.of_nat (_size (this f) + 1))
         (Z.of_nat StaticCapacity) (Z.of_nat (_capacity (this f)))) ∧
    wf (this f') ∧ other f' = other f.
Proof.
  intros Hwf Hadd Hsafe.
  destruct (proj1 (wp_Returns _ _ _)
              (wp_conj _ _ _ _ (push_back_spec add x f Hwf Hadd Hsafe)
                 (push_back_capacity add x f Hwf Hadd Hsafe)))
    as ([] & f' & Hrun & (Hwf' & Hsz & Hel & Hoth & _) & Hcap).
  exists f'. split_and!; try done; [lia| |].
  - intros Hfit. rewrite Hcap.
    destruct Hwf as [_ [(Hc & ? & _) | (? & ? & ? & _)]].
    + rewrite Hc in *. by apply capfunc_inline.
    + apply capfunc_keep; lia.
  - intros HN Hs Hc. rewrite Hcap. symmetry. by apply capfunc_word_agrees.
Qed.

(** X3. [pop_back()] removes the last element and nothing else; on an empty
    container it does nothing at all.  The capacity becomes what [capfunc]
    answers for the new size. *)
Theorem pop_back_drops_last f :
  wf (this f) →
  ∃ f', pop_back f = Returns () f' ∧
    elements (this f') = take (_size (this f) - 1) (elements (this f)) ∧
    _size (this f') = _size (this f) - 1 ∧
    _capacity (this f') =
      capfunc (_size (this f) - 1) StaticCapacity (_capacity (this f)) ∧
    (_size (this f) = 0 → f' = f) ∧
    wf (this f') ∧ other f' = other f.
Proof.
  intros Hwf.
  destruct (proj1 (wp_Returns _ _ _)
              (wp_conj _ _ _ _ (pop_back_spec f Hwf) (pop_back_capacity f Hwf)))
    as ([] & f' & Hrun & (Hwf' & Hsz & Hel & Hoth & _) & Hcap).
  exists f'. split_and!; try done.
  intros Hz. unfold pop_back in Hrun.
  erewrite bind_Returns in Hrun by reflexivity.
  rewrite decide_True in Hrun by done. by injection Hrun.
Qed.

(** X4. [clear()] leaves an empty, inline container with capacity
    [StaticCapacity] and no heap block; clearing it again changes nothing. *)
Theorem clear_empties_and_releases f :
  wf (this f) →
  ∃ f', clear f = Returns () f' ∧
    elements (this f') = [] ∧
    _size (this f') = 0 ∧
    _capacity (this f') = StaticCapacity ∧
    heapArr (this f') = None ∧
    clear f' = Returns () f' ∧
    wf (this f') ∧ other f' = other f.
Proof.
  intros Hwf.
  destruct (proj1 (wp_Returns _ _ _) (clear_spec f Hwf))
    as ([] & f' & Hrun & Hwf' & Hsz & Hcap & Hheap & Hoth & _).
  exists f'. split_and!; try done.
  - unfold elements. by rewrite Hsz.
  - unfold clear. erewrite bind_Returns by reflexivity.
    by rewrite decide_True.
Qed.

(** ** Constructors and comparison *)

(** X5. The range constructor builds a container that holds the values of
    the range, in order, and satisfies the storage invariant: it is inline
    exactly when the range has at most [StaticCapacity] values. *)
Theorem range_constructor_holds_the_range (xs : list T) :
  ∃ v, construct (VLVector_range xs) None = Some v ∧
    elements v = xs ∧ _size v = length xs ∧
    storage_invariant v ∧ reachable v.
Proof.
  destruct (construct_range xs) as (v & Hc & Hwf & Hsz & Hel).
  exists v. split_and!; try done.
  - by apply wf_storage_invariant.
  - by eapply reach_range.
Qed.

Lemma VLVector_copy_keeps_source f u :
  other f = Some u → wf u → wf (this f) →
  wp VLVector_copy (λ _ f', other f' = Some u) f.
Proof.
  intros Hu Hwfu Hwf.
  destruct (wf_active u Hwfu) as (buf & Hact & _ & Hsz & Hel).
  unfold VLVector_copy. apply wp_bind. eapply wp_begin; [done|].
  apply wp_bind. unfold end_. apply wp_bind. eapply wp_begin; [done|].
  apply wp_bind. eapply wp_get; [done|]. apply wp_ret.
  unfold ptr_add; cbn [base off]. apply wp_bind.
  unfold read_range. apply wp_bind.
  eapply wp_ptr_diff; [done|cbn [off]; lia|]. cbn [off].
  eapply wp_mono;
    [eapply read_loop_spec; [by rewrite (array_active Other f u)|lia]|].
  intros xs f1 (-> & Hthis & Hoth). cbv beta.
  eapply wp_mono; [apply VLVector_range_spec; by rewrite Hthis|].
  intros _ f2 (_ & _ & _ & Hoth2). by rewrite Hoth2, Hoth.
Qed.

Section comparison.
Context `{!EqDecision T}.

(** X6. [operator==] answers [true] exactly when the two containers hold the
    same elements in the same order, inline or on the heap and whatever
    their capacities; [operator!=] answers the opposite.  Neither changes a container. *)
Theorem operator_eq_compares_elements f b :
  other f = Some b → wf (this f) → wf b →
  (∃ f', operator_eq f
           = Returns (bool_decide (elements (this f) = elements b)) f' ∧
         this f' = this f ∧ other f' = other f) ∧
  (∃ f', operator_ne f
           = Returns (bool_decide (elements (this f) ≠ elements b)) f' ∧
         this f' = this f ∧ other f' = other f).
Proof.
  intros Hb Hwfa Hwfb.
  destruct (proj1 (wp_Returns _ _ _) (operator_eq_spec f b Hb Hwfa Hwfb))
    as (res & f' & Hrun & -> & Hthis & Hoth).
  split; exists f'; (split; [|done]); [done|].
  unfold operator_ne. rewrite (bind_Returns _ _ _ _ _ Hrun).
  unfold mret, M_ret. f_equal. by rewrite bool_decide_not.
Qed.

(** X7. The copy constructor builds a container with the elements and the
    size of its source; it leaves the source as it was, and the copy
    compares equal to the source. *)
Theorem copy_constructor_copies u :
  wf u →
  ∃ f', VLVector_copy (mkFrame VLVector_default (Some u) None [] 0) = Returns () f' ∧
    construct VLVector_copy (Some u) = Some (this f') ∧
    other f' = Some u ∧
    elements (this f') = elements u ∧
    _size (this f') = _size u ∧
    wf (this f') ∧
    ∃ f'', operator_eq f' = Returns true f''.
Proof.
  intros Hwfu.
  destruct (proj1 (wp_Returns _ _ _)
              (wp_conj _ _ _ _
                 (VLVector_copy_spec (mkFrame VLVector_default (Some u) None [] 0)
                    u eq_refl Hwfu wf_default)
                 (VLVector_copy_keeps_source
                    (mkFrame VLVector_default (Some u) None [] 0)
                    u eq_refl Hwfu wf_default)))
    as ([] & f' & Hrun & (Hwf & Hsz & Hel) & Hoth).
  exists f'. split_and!; try done.
  - unfold construct. by rewrite Hrun.
  - destruct (proj1 (wp_Returns _ _ _) (operator_eq_spec f' u Hoth Hwf Hwfu))
      as (res & f'' & Hrun' & -> & _).
    exists f''. rewrite Hrun'. by rewrite bool_decide_true.
Qed.

End comparison.

(** ** [insert] and [erase] together *)

Lemma begin_Returns o f v :
  object o f = Some v → begin o f = Returns (Ptr (active_region o v) 0) f.
Proof.
  intros Hv. unfold begin, active_region.
  erewrite bind_Returns by (unfold get; by rewrite Hv).
  by case_decide.
Qed.

Lemma splice_unsplice p xs l :
  p ≤ length l →
  take p (take p l ++ xs ++ drop p l)
    ++ drop (p + length xs) (take p l ++ xs ++ drop p l) = l.
Proof.
  intros Hp.
  rewrite take_app_length' by (by rewrite length_take_le).
  rewrite app_assoc, drop_app_length'
    by (rewrite length_app, length_take_le; lia).
  apply take_drop.
Qed.

(** X8. Erasing what was just inserted gives back the elements and the size
    the container had: for the range form with the range erased from
    [begin() + p], and for the single-element form with the iterator that
    [insert] returned. *)
Theorem insert_then_erase_restores f p xs x :
  wf (this f) → p ≤ _size (this f) →
  (∃ it f',
     (insert_range (iterator (this f) p) xs;;
      b ← begin This;
      erase_range (ptr_add b p) (ptr_add b (p + length xs))) f = Returns it f' ∧
     elements (this f') = elements (this f) ∧
     _size (this f') = _size (this f)) ∧
  (∃ it f',
     (it ← insert (iterator (this f) p) x; erase it) f = Returns it f' ∧
     elements (this f') = elements (this f) ∧
     _size (this f') = _size (this f) ∧
     it = iterator (this f') p).
Proof.
  intros Hwf Hp. pose proof (elements_length _ Hwf) as Hlen. split.
  - destruct (proj1 (wp_Returns _ _ _) (insert_range_spec p xs f Hwf Hp))
      as (it1 & f1 & Hrun1 & Hwf1 & Hsz1 & _ & Hel1 & _).
    destruct (proj1 (wp_Returns _ _ _)
                (erase_range_spec p (p + length xs) f1 Hwf1 ltac:(lia) ltac:(lia)))
      as (it & f' & Hrun & _ & Hsz & _ & Hel & _).
    exists it, f'. split_and!.
    + rewrite (bind_Returns _ _ _ _ _ Hrun1).
      rewrite (bind_Returns _ _ _ _ _ (begin_Returns This f1 _ eq_refl)).
      exact Hrun.
    + rewrite Hel, Hel1. apply splice_unsplice. lia.
    + lia.
  - destruct (proj1 (wp_Returns _ _ _) (insert_spec p x f Hwf Hp))
      as (it1 & f1 & Hrun1 & Hwf1 & Hsz1 & _ & Hel1 & -> & _).
    destruct (proj1 (wp_Returns _ _ _)
                (erase_range_spec p (p + 1) f1 Hwf1 ltac:(lia) ltac:(lia)))
      as (it & f' & Hrun & _ & Hsz & _ & Hel & Hit & _).
    exists it, f'. split_and!; [|..|done].
    + rewrite (bind_Returns _ _ _ _ _ Hrun1). exact Hrun.
    + rewrite Hel, Hel1. apply (splice_unsplice p [x]). lia.
    + lia.
Qed.

(** X9. [erase(first, last)] returns the iterator [begin() + (first - begin())]
    of the container as it is afterwards: it points at the element that was
    at [last], and it is [end()] when [last] was [end()]. *)
Theorem erase_returns_next f a b :
  wf (this f) → a ≤ b → b ≤ _size (this f) →
  ∃ it f',
    erase_range (iterator (this f) a) (iterator (this f) b) f = Returns it f' ∧
    it = iterator (this f') a ∧
    elements (this f') !! a = elements (this f) !! b ∧
    (b = _size (this f) → a = _size (this f')).
Proof.
  intros Hwf Hab Hb. pose proof (elements_length _ Hwf) as Hlen.
  destruct (proj1 (wp_Returns _ _ _) (erase_range_spec a b f Hwf Hab Hb))
    as (it & f' & Hrun & _ & Hsz & _ & Hel & Hit & _).
  exists it, f'. split_and!; [done..| |lia].
  rewrite Hel, lookup_app_r by (rewrite length_take_le; lia).
  rewrite length_take_le, Nat.sub_diag, lookup_drop by lia.
  f_equal. lia.
Qed.

(** X10. The single-element [insert] returns an iterator to the element it
    inserted: reading through it gives that element. *)
Theorem insert_returns_inserted f p x :
  wf (this f) → p ≤ _size (this f) →
  ∃ it f',
    insert (iterator (this f) p) x f = Returns it f' ∧
    it = iterator (this f') p ∧
    elements (this f') !! p = Some x ∧
    load it f' = Returns x (log it f').
Proof.
  intros Hwf Hp. pose proof (elements_length _ Hwf) as Hlen.
  destruct (proj1 (wp_Returns _ _ _) (insert_spec p x f Hwf Hp))
    as (it & f' & Hrun & Hwf' & Hsz & _ & Hel & -> & _).
  assert (Hx : elements (this f') !! p = Some x).
  { rewrite Hel, lookup_app_r by (rewrite length_take_le; lia).
    by rewrite length_take_le, Nat.sub_diag by lia. }
  exists (iterator (this f') p), f'. split_and!; [done..|].
  destruct (load_element p f' Hwf' ltac:(lia)) as (y & Hy & Hload).
  rewrite Hload. congruence.
Qed.

(** X11. The range [insert] returns [begin() + k] of the container as it is
    afterwards, [k] being the number of elements inserted, whatever the
    position was: the result is the iterator to the first inserted element
    exactly when [position - begin()] is [k]. *)
Theorem range_insert_returns_count_offset f p xs :
  wf (this f) → p ≤ _size (this f) →
  ∃ it f',
    insert_range (iterator (this f) p) xs f = Returns it f' ∧
    it = iterator (this f') (length xs) ∧
    (it = iterator (this f') p ↔ p = length xs).
Proof.
  intros Hwf Hp.
  destruct (proj1 (wp_Returns _ _ _) (insert_range_spec p xs f Hwf Hp))
    as (it & f' & Hrun & _ & _ & _ & _ & ->).
  exists (iterator (this f') (length xs)), f'. split_and!; [done..|].
  unfold iterator. split; [by intros [= ->]|by intros ->].
Qed.

(** ** Reading a container *)

(** X12. For [idx < size], the reference that [at(idx)] and [operator[]]
    return holds the element at position [idx] of the sequence. *)
Theorem at_reads_the_element f idx :
  wf (this f) → idx < _size (this f) →
  ∃ x, elements (this f) !! idx = Some x ∧
    (at_ idx ≫= load) f = Returns x (log (iterator (this f) idx) f) ∧
    (subscript This idx ≫= load) f = Returns x (log (iterator (this f) idx) f).
Proof.
  intros Hwf Hidx.
  destruct (load_element idx f Hwf Hidx) as (x & Hx & Hload).
  exists x. split; [done|].
  assert (Hsub : subscript This idx f = Returns (iterator (this f) idx) f)
    by (by apply subscript_Returns).
  split.
  - erewrite bind_Returns; [exact Hload|]. by rewrite at_in_range.
  - by rewrite (bind_Returns _ _ _ _ _ Hsub).
Qed.

Lemma end_Returns o f v :
  object o f = Some v →
  end_ o f = Returns (Ptr (active_region o v) (_size v)) f.
Proof.
  intros Hv. unfold end_.
  rewrite (bind_Returns _ _ _ _ _ (begin_Returns o f v Hv)).
  erewrite bind_Returns by (unfold get; by rewrite Hv). done.
Qed.

(** X13. The queries agree with the sequence of elements: [size()] is its
    length, [empty()] says whether it is empty, [capacity()] is at least its
    length and at least [StaticCapacity], [end() - begin()] is its length,
    and reading from [data()] up to [cend()] yields it, leaving the
    container as it was. *)
Theorem queries_agree_with_the_elements f :
  wf (this f) →
  size_ f = Returns (length (elements (this f))) f ∧
  empty_ f = Returns (bool_decide (elements (this f) = [])) f ∧
  (∃ c, capacity_ f = Returns c f ∧
        length (elements (this f)) ≤ c ∧ StaticCapacity ≤ c) ∧
  (b ← begin This; e ← end_ This; ptr_diff e b) f
    = Returns (length (elements (this f))) f ∧
  ∃ f', (b ← data; e ← cend; read_range b e) f
          = Returns (elements (this f)) f' ∧
        this f' = this f.
Proof.
  intros Hwf. pose proof (elements_length _ Hwf) as Hlen.
  destruct (wf_active _ Hwf) as (buf & Hact & Hcap & Hsz & Hel).
  pose proof (wf_storage_invariant _ Hwf) as (HN & _).
  split_and!.
  - unfold size_, get. cbn. by rewrite Hlen.
  - unfold empty_. erewrite bind_Returns by reflexivity.
    unfold mret, M_ret. f_equal. apply bool_decide_ext.
    rewrite <- Hlen. split; [by intros ?%nil_length_inv|by intros ->].
  - exists (_capacity (this f)). split_and!; [done|lia|done].
  - rewrite (bind_Returns _ _ _ _ _ (begin_Returns This f _ eq_refl)).
    rewrite (bind_Returns _ _ _ _ _ (end_Returns This f _ eq_refl)).
    unfold ptr_diff. cbn [base off]. rewrite decide_True by (split; [done|lia]).
    unfold mret, M_ret. f_equal. lia.
  - change data with (begin This). change cend with (end_ This).
    rewrite (bind_Returns _ _ _ _ _ (begin_Returns This f _ eq_refl)).
    rewrite (bind_Returns _ _ _ _ _ (end_Returns This f _ eq_refl)).
    assert (Hread : wp (read_range (Ptr (active_region This (this f)) 0)
                          (Ptr (active_region This (this f)) (_size (this f))))
                      (λ xs f', xs = elements (this f) ∧ this f' = this f) f).
    { unfold read_range. apply wp_bind.
      eapply wp_ptr_diff; [done|cbn [off]; lia|]. cbn [off].
      eapply wp_mono;
        [eapply read_loop_spec; [by rewrite (array_active This f)|lia]|].
      intros xs f' (-> & Hthis & _). split; [|done].
      by rewrite Hel, Nat.sub_0_r, drop_0. }
    apply wp_Returns in Hread as (xs & f' & Hrun & -> & Hthis).
    by exists f'.
Qed.

(** ** Operations that do one another's work *)

(** X14. [insert(end(), x)], which takes [x] by value, and [push_back(x)],
    which takes a reference, lead to the same elements, size and capacity
    as long as the reference is still bound when [push_back] reads it. *)
Theorem insert_at_end_is_push_back f add x :
  wf (this f) → refers add f x → survives_push_back add (this f) →
  ∃ it f1 f2,
    insert (iterator (this f) (_size (this f))) x f = Returns it f1 ∧
    push_back add f = Returns () f2 ∧
    elements (this f1) = elements (this f2) ∧
    _size (this f1) = _size (this f2) ∧
    _capacity (this f1) = _capacity (this f2).
Proof.
  intros Hwf Hadd Hsafe. pose proof (elements_length _ Hwf) as Hlen.
  destruct (proj1 (wp_Returns _ _ _)
              (insert_spec (_size (this f)) x f Hwf ltac:(lia)))
    as (it & f1 & Hrun1 & _ & Hsz1 & Hcap1 & Hel1 & _).
  destruct (proj1 (wp_Returns _ _ _)
              (wp_conj _ _ _ _ (push_back_spec add x f Hwf Hadd Hsafe)
                 (push_back_capacity add x f Hwf Hadd Hsafe)))
    as ([] & f2 & Hrun2 & (_ & Hsz2 & Hel2 & _) & Hcap2).
  exists it, f1, f2. split_and!; [done..| |lia|congruence].
  rewrite Hel1, Hel2, take_ge, drop_ge by lia. done.
Qed.

(** X20. [push_back] of a reference into the receiver's own heap block has
    no defined behaviour when the block is full: [_reCap] releases the
    block, and the assignment that follows reads the reference.
    [insert(end(), x)] copied [x] when it was called; it returns and
    appends [x]. *)
Theorem push_back_reads_released_block f i x :
  wf (this f) → _size (this f) = _capacity (this f) →
  refers (Ref (Ptr (HeapArr This) i) (released f)) f x →
  push_back (Ref (Ptr (HeapArr This) i) (released f)) f = Undefined ∧
  ∃ it f',
    insert (iterator (this f) (_size (this f))) x f = Returns it f' ∧
    elements (this f') = elements (this f) ++ [x].
Proof.
  intros Hwf Hfull (_ & _ & Hx). cbn in Hx.
  assert (Hheap : on_heap (this f)).
  { destruct Hwf as [_ [(_ & _ & Hnone) | (? & _)]]; [|done].
    by rewrite Hnone in Hx. }
  split.
  - destruct (proj1 (wp_Returns _ _ _) (push_back_reCap_releases f Hwf Hheap Hfull))
      as ([] & f1 & Hrun & Hrel & Hheap1).
    rewrite (push_back_steps _ _ _ Hrun).
    unfold push_back_assign, mbind, M_bind, get. cbn [object].
    rewrite decide_True by done. unfold deref. cbn [base].
    rewrite decide_True; [done|]. split; [done|]. lia.
  - pose proof (elements_length _ Hwf) as Hlen.
    destruct (proj1 (wp_Returns _ _ _)
                (insert_spec (_size (this f)) x f Hwf ltac:(lia)))
      as (it & f' & Hrun & _ & _ & _ & Hel & _).
    exists it, f'. split; [done|].
    rewrite Hel, take_ge, drop_ge by lia. done.
Qed.

(** X15. On a container that is not empty, erasing the last element and
    [pop_back()] lead to the same elements, size and capacity; erasing
    [[begin(), end())] and [clear()] do so on every container. *)
Theorem erase_agrees_with_pop_back_and_clear f :
  wf (this f) → 0 < _size (this f) →
  (∃ it f1 f2,
     erase (iterator (this f) (_size (this f) - 1)) f = Returns it f1 ∧
     pop_back f = Returns () f2 ∧
     elements (this f1) = elements (this f2) ∧
     _size (this f1) = _size (this f2) ∧
     _capacity (this f1) = _capacity (this f2)) ∧
  (∃ it f1 f2,
     erase_range (iterator (this f) 0) (iterator (this f) (_size (this f))) f
       = Returns it f1 ∧
     clear f = Returns () f2 ∧
     elements (this f1) = elements (this f2) ∧
     _size (this f1) = _size (this f2) ∧
     _capacity (this f1) = _capacity (this f2)).
Proof.
  intros Hwf Hpos. pose proof (elements_length _ Hwf) as Hlen. split.
  - destruct (proj1 (wp_Returns _ _ _)
                (erase_range_spec (_size (this f) - 1) (_size (this f) - 1 + 1)
                   f Hwf ltac:(lia) ltac:(lia)))
      as (it & f1 & Hrun1 & _ & Hsz1 & Hcap1 & Hel1 & _).
    destruct (proj1 (wp_Returns _ _ _)
                (wp_conj _ _ _ _ (pop_back_spec f Hwf) (pop_back_capacity f Hwf)))
      as ([] & f2 & Hrun2 & (_ & Hsz2 & Hel2 & _) & Hcap2).
    exists it, f1, f2. split_and!; [done..| |lia|].
    + rewrite Hel1, Hel2, drop_ge, app_nil_r by lia. done.
    + rewrite Hcap1, Hcap2. f_equal. lia.
  - destruct (proj1 (wp_Returns _ _ _)
                (erase_range_spec 0 (_size (this f)) f Hwf ltac:(lia) ltac:(lia)))
      as (it & f1 & Hrun1 & _ & Hsz1 & Hcap1 & Hel1 & _).
    destruct (proj1 (wp_Returns _ _ _) (clear_spec f Hwf))
      as ([] & f2 & Hrun2 & _ & Hsz2 & Hcap2 & _).
    exists it, f1, f2. split_and!; [done..| |lia|].
    + rewrite Hel1, take_0, drop_ge by lia. unfold elements.
      by rewrite Hsz2.
    + rewrite Hcap1, Hcap2. apply capfunc_inline. lia.
Qed.

(** ** The heap block *)

End VLVector_proofs.

(** * The claims on concrete containers *)

Lemma wf_v123 : wf v123.
Proof. split; [reflexivity|]. left. cbn. split_and!; [done|lia|done]. Defined.

Lemma wf_v1234 : wf v1234.
Proof. split; [reflexivity|]. left. cbn. split_and!; [done|lia|done]. Defined.

Lemma wf_v12345 : wf v12345.
Proof.
  split; [reflexivity|]. right. cbn. split_and!; [lia..|].
  eexists. split; reflexivity.
Defined.

Lemma wf_v12345_wide : wf v12345_wide.
Proof.
  split; [reflexivity|]. right. cbn. split_and!; [lia..|].
  eexists. split; reflexivity.
Defined.

Lemma wf_v1234567 : wf v1234567.
Proof.
  split; [reflexivity|]. right. cbn. split_and!; [lia..|].
  eexists. split; reflexivity.
Defined.

(** The range constructor on [{1, ..., 6}], then [erase] of the second and
    third element. *)
Lemma reachable_v1456 : reachable v1456.
Proof.
  apply (reach_step (OpEraseRange 1 3) v123456).
  - by apply (reach_range [1; 2; 3; 4; 5; 6]).
  - cbn. lia.
  - reflexivity.
Defined.

(** C8. With [StaticCapacity = 4], four [push_back]s leave the container
    inline with capacity 4; the fifth takes it to the heap with capacity
    [7 = 3 * 5 / 2]; one [pop_back] brings it back inline with capacity 4 and
    the first four elements in order. *)
Theorem fifth_push_goes_to_heap_and_pop_comes_back (a b c d e : nat) :
  ∃ f4 f5 f4',
    (push_back (Val a);; push_back (Val b);; push_back (Val c);;
     push_back (Val d)) (frame_of VLVector_default) = Returns () f4 ∧
    inline (this f4) ∧
    push_back (Val e) f4 = Returns () f5 ∧
    _size (this f5) = 5 ∧
    _capacity (this f5) = 7 ∧
    capfunc 5 4 4 = 7 ∧
    on_heap (this f5) ∧
    elements (this f5) = [a; b; c; d; e] ∧
    pop_back f5 = Returns () f4' ∧
    _size (this f4') = 4 ∧
    _capacity (this f4') = 4 ∧
    inline (this f4') ∧
    heapArr (this f4') = None ∧
    elements (this f4') = [a; b; c; d].
Proof.
  set (rd4 := Ptr (StackArr This) <$> seq 0 4).
  exists (mkFrame (mkVLVector 4 4 None [a; b; c; d]) None None [] 0),
    (mkFrame (mkVLVector 5 7 (Some [a; b; c; d; e; 0; 0]) [a; b; c; d])
       None None rd4 0),
    (mkFrame (mkVLVector 4 4 None [a; b; c; d]) None None
       (rd4 ++ (Ptr (HeapArr This) <$> seq 0 4)) 1).
  split_and!; try (vm_compute; reflexivity). vm_compute. lia.
Qed.

(** C2, at an input where the code departs from it.  Inserting the range
    [{9}] at [begin()] of [{1, 2, 3}] gives [{9, 1, 2, 3}] and returns
    [begin() + 1], the number of elements inserted, which points at the old
    first element [1]; the first inserted element is at [begin() + 0]. *)
Theorem range_insert_returns_begin_plus_count :
  ∃ it f',
    insert_range (iterator v123 0) [9] (frame_of v123) = Returns it f' ∧
    elements (this f') = [9; 1; 2; 3] ∧
    it = iterator (this f') 1 ∧
    it ≠ iterator (this f') 0 ∧
    elements (this f') !! off it = Some 1.
Proof.
  eexists _, _. split; [vm_compute; reflexivity|].
  split_and!; try (vm_compute; reflexivity). by vm_compute.
Qed.

(** The single-element form of [insert] on the same input does return
    [begin() + 0]. *)
Lemma single_insert_returns_position :
  ∃ it f',
    insert (iterator v123 0) 9 (frame_of v123) = Returns it f' ∧
    elements (this f') = [9; 1; 2; 3] ∧
    it = iterator (this f') 0.
Proof.
  eexists _, _. split; [vm_compute; reflexivity|].
  split; vm_compute; reflexivity.
Qed.

(** C7 as stated fails: every failed [at] raises one and the same
    exception, so no index can be read off it. *)
Lemma at_error_does_not_identify_index :
  ¬ error_identifies_index (frame_of v123).
Proof.
  intros [index_of Hindex].
  pose proof (Hindex 3 _ _ eq_refl) as H3.
  pose proof (Hindex 4 _ _ eq_refl) as H4.
  congruence.
Qed.

(** C1, at an input where the code departs from it.  Assigning [{7}] to an
    empty container never returns: after the self-assignment test and
    [clear()], [operator=] calls itself on the temporary [VLVector(rhs)],
    which is again a container other than [*this]; each round ends in
    another round, on a store that has grown by the temporary.  This is so
    whether the test compares addresses or values. *)
Theorem copy_assignment_never_returns how fuel :
  operator_assign how fuel [VLVector_default; v7] 0 1 = OutOfFuel.
Proof.
  enough (Hround : ∀ σ rhs,
            σ !! 0 = Some VLVector_default → σ !! rhs = Some v7 →
            operator_assign how fuel σ 0 rhs = OutOfFuel)
    by (by apply Hround).
  induction fuel as [|fuel IH]; intros σ rhs Hthis Hrhs; [done|].
  assert (rhs ≠ 0) as Hne by (intros ->; rewrite Hthis in Hrhs; discriminate).
  cbn [operator_assign]. rewrite Hthis, Hrhs.
  (* the test fails *)
  assert (rhs_is_this how 0 rhs VLVector_default v7 = Some false) as ->.
  { destruct how; [|by vm_compute]. cbn. by rewrite bool_decide_false. }
  (* clear() leaves the empty container as it is *)
  change (call clear VLVector_default None)
    with (Some ((), VLVector_default (H:=nat_4))).
  cbv iota beta. rewrite (list_insert_id _ _ _ Hthis), Hrhs.
  (* the temporary is a copy of rhs *)
  change (Some v7 ≫= _) with (Some v7).
  assert (0 < length σ) by (by eapply lookup_lt_Some).
  cbv iota beta. rewrite IH; [done| |].
  - by rewrite lookup_app_l.
  - by rewrite lookup_app_r, Nat.sub_diag by lia.
Qed.

(** Under the address reading the self-assignment test does its work:
    [a = a] returns at once and changes nothing. *)
Lemma self_assignment_is_detected fuel (σ : list (VLVector nat)) a v :
  σ !! a = Some v → operator_assign ByIdentity (S fuel) σ a a = Done σ.
Proof. intros Ha. cbn. rewrite Ha. cbn. by rewrite bool_decide_true. Qed.

(** ** The general theorems at work *)

(** C3 on [{1, 2, 3}]: the range [{9, 8}] and the element [7] inserted
    before the second element. *)
Lemma insert_splices_at_position_witness :
  wf (this (frame_of v123)) ∧ 1 ≤ _size (this (frame_of v123)) ∧
  (∃ it f',
     insert_range (iterator v123 1) [9; 8] (frame_of v123) = Returns it f' ∧
     elements (this f') = [1; 9; 8; 2; 3] ∧ on_heap (this f')) ∧
  (∃ it f',
     insert (iterator v123 1) 7 (frame_of v123) = Returns it f' ∧
     elements (this f') = [1; 7; 2; 3] ∧ inline (this f')).
Proof.
  assert (Hwf : wf (this (frame_of v123))) by exact wf_v123.
  assert (Hp : 1 ≤ _size (this (frame_of v123))) by (vm_compute; lia).
  split; [exact Hwf|]. split; [exact Hp|].
  destruct (insert_splices_at_position (frame_of v123) 1 [9; 8] 7 Hwf Hp)
    as [(it & f' & Hrun & Hel & _ & Hheap & _)
        (it1 & f1 & Hrun1 & Hel1 & _ & _ & Hin)].
  split.
  - exists it, f'. split; [exact Hrun|]. split; [exact Hel|].
    apply Hheap. right. vm_compute. lia.
  - exists it1, f1. split; [exact Hrun1|]. split; [exact Hel1|].
    apply Hin. split; [reflexivity|]. vm_compute. lia.
Defined.

(** C4 on [{1, 2, 3, 4, 5}], which is on the heap: erasing the second and
    third element brings it back inline. *)
Lemma erase_removes_range_witness :
  wf (this (frame_of v12345)) ∧ 1 ≤ 3 ∧ 3 ≤ _size (this (frame_of v12345)) ∧
  0 < _size (this (frame_of v12345)) ∧
  (∃ it f',
     erase_range (iterator v12345 1) (iterator v12345 3) (frame_of v12345)
       = Returns it f' ∧
     elements (this f') = [1; 4; 5] ∧ inline (this f')) ∧
  (∃ it f',
     erase (iterator v12345 0) (frame_of v12345) = Returns it f' ∧
     elements (this f') = [2; 3; 4; 5]).
Proof.
  assert (Hwf : wf (this (frame_of v12345))) by exact wf_v12345.
  assert (Hab : 1 ≤ 3) by lia.
  assert (Hb : 3 ≤ _size (this (frame_of v12345))) by (vm_compute; lia).
  assert (Hc : 0 < _size (this (frame_of v12345))) by (vm_compute; lia).
  split; [exact Hwf|]. split; [exact Hab|]. split; [exact Hb|].
  split; [exact Hc|].
  destruct (erase_removes_range (frame_of v12345) 1 3 0 Hwf Hab Hb Hc)
    as [(it & f' & Hrun & Hel & _ & Hin & _) (it1 & f1 & Hrun1 & _ & Hel1 & _)].
  split.
  - exists it, f'. split; [exact Hrun|]. split; [exact Hel|].
    apply Hin. vm_compute. lia.
  - exists it1, f1. split; [exact Hrun1|exact Hel1].
Defined.

(** C5 on [{1, 2, 3, 4, 5}] in a block of twelve slots, with [9]s left in
    the inline array: [pop_back] reads slots 0 to 3 of the heap block and
    the inline array holds their values afterwards. *)
Lemma transition_copies_min_of_sizes_witness :
  wf (this (frame_of v12345_wide)) ∧
  ∃ f', pop_back (frame_of v12345_wide) = Returns () f' ∧
    reads f' = Ptr (HeapArr This) <$> [0; 1; 2; 3] ∧
    stackArr (this f') = [1; 2; 3; 4].
Proof.
  assert (Hwf : wf (this (frame_of v12345_wide))) by exact wf_v12345_wide.
  split; [exact Hwf|].
  destruct (transition_copies_min_of_sizes (frame_of v12345_wide) Hwf)
    as (_ & (f' & Hrun & _ & _) & _).
  exists f'. split; [exact Hrun|].
  vm_compute in Hrun. injection Hrun as <-. split; reflexivity.
Defined.

(** C6 on [{1, 4, 5, 6}], which the range constructor built on the heap and
    [erase] brought back inline: [push_back] of its own first element takes
    it to the heap again. *)
Lemma reachable_storage_invariant_witness :
  reachable v1456 ∧
  storage_invariant v1456 ∧
  valid_args (OpPushBack (Ref (Ptr (StackArr This) 0) 0)) v1456 ∧
  ∃ v', completes
          (perform (OpPushBack (Ref (Ptr (StackArr This) 0) 0)) (frame_of v1456))
          v' ∧
    storage_invariant v' ∧ _size v' = 5 ∧ _capacity v' = 7.
Proof.
  assert (Hreach : reachable v1456) by exact reachable_v1456.
  assert (Hargs : valid_args (OpPushBack (Ref (Ptr (StackArr This) 0) 0)) v1456).
  { split; [exists 1; by split_and!|]. intros Hheap. discriminate Hheap. }
  split; [exact Hreach|].
  destruct (reachable_storage_invariant _ Hreach) as (Hinv & _ & Hstep).
  split; [exact Hinv|]. split; [exact Hargs|].
  destruct (Hstep _ Hargs) as (v' & Hdone & _ & Hinv').
  exists v'. split; [exact Hdone|]. split; [exact Hinv'|].
  vm_compute in Hdone. subst v'. split; reflexivity.
Defined.

(** C9 on [{1, 2, 3, 4, 5}], at the third element. *)
Lemma empty_range_edits_change_nothing_witness :
  wf (this (frame_of v12345)) ∧ 2 ≤ _size (this (frame_of v12345)) ∧
  (∃ it f',
     erase_range (iterator v12345 2) (iterator v12345 2) (frame_of v12345)
       = Returns it f' ∧
     _size (this f') = 5 ∧ _capacity (this f') = 7 ∧
     elements (this f') = [1; 2; 3; 4; 5]) ∧
  (∃ it f',
     insert_range (iterator v12345 2) [] (frame_of v12345) = Returns it f' ∧
     _size (this f') = 5 ∧ _capacity (this f') = 7 ∧
     elements (this f') = [1; 2; 3; 4; 5]).
Proof.
  assert (Hwf : wf (this (frame_of v12345))) by exact wf_v12345.
  assert (Hp : 2 ≤ _size (this (frame_of v12345))) by (vm_compute; lia).
  split; [exact Hwf|]. split; [exact Hp|].
  exact (empty_range_edits_change_nothing (frame_of v12345) 2 Hwf Hp).
Defined.

(** C10 on the full inline container [{1, 2, 3, 4}]: the [push_back] moves
    it to the heap and the [pop_back] moves it back, for the value [5] and
    for a reference to its own first element. *)
Lemma push_back_pop_back_restores_witness :
  wf (this (frame_of v1234)) ∧
  (∃ f', (push_back (Val 5);; pop_back) (frame_of v1234) = Returns () f' ∧
     _size (this f') = 4 ∧ elements (this f') = [1; 2; 3; 4]) ∧
  refers (Ref (Ptr (StackArr This) 0) 0) (frame_of v1234) 1 ∧
  survives_push_back (Ref (Ptr (StackArr This) 0) 0) (this (frame_of v1234)) ∧
  (∃ f', (push_back (Ref (Ptr (StackArr This) 0) 0);; pop_back)
           (frame_of v1234) = Returns () f' ∧
     _size (this f') = 4 ∧ elements (this f') = [1; 2; 3; 4]).
Proof.
  assert (Hwf : wf (this (frame_of v1234))) by exact wf_v1234.
  assert (Hadd : refers (Ref (Ptr (StackArr This) 0) 0) (frame_of v1234) 1)
    by (by split_and!).
  assert (Hsafe : survives_push_back (Ref (Ptr (StackArr This) 0) 0)
                    (this (frame_of v1234)))
    by (intros Hheap; discriminate Hheap).
  destruct (push_back_pop_back_restores (frame_of v1234) Hwf) as [Hval Href].
  split; [exact Hwf|]. split; [exact (Hval 5)|].
  split; [exact Hadd|]. split; [exact Hsafe|].
  exact (Href _ 1 Hadd Hsafe).
Defined.

(** * Further properties on machine integers *)

Section machine_integers.
Local Open Scope Z_scope.

(** X1. Where the static capacity fits an [int] and three times the size
    a [size_t], the capacity [capfunc] answers is never below the size
    asked for nor below the static capacity; it is one of the static
    capacity, the current capacity and three halves of the size asked for;
    and it is the current capacity unless the size fits the static
    capacity or exceeds the current one. *)
Theorem capfunc_fits_the_request (s N c : Z) :
  0 ≤ N < 2 ^ 31 → 0 ≤ s → 3 * s < 2 ^ 64 → 0 ≤ c < 2 ^ 64 →
  ∃ r, Word.capfunc_call s N c = r ∧
    s ≤ r ∧ N ≤ r ∧
    (r = N ∨ r = c ∨ r = 3 * s / 2) ∧
    (r = c ∨ s ≤ N ∨ c < s).
Proof.
  intros HN Hs Hs3 Hc. eexists. split; [reflexivity|].
  unfold Word.capfunc_call, Word.capfunc_word.
  assert (Word.int_of N = N) as ->.
  { unfold Word.int_of. rewrite Z.mod_small by lia. lia. }
  assert (Word.size_t_of N = N) as -> by (apply Z.mod_small; lia).
  assert (Word.size_t_of (3 * s) = 3 * s) as -> by (apply Z.mod_small; lia).
  assert (s ≤ 3 * s / 2) by (apply Z.div_le_lower_bound; lia).
  destruct (Z.leb_spec s N); [split_and!; auto with lia|].
  destruct (Z.leb_spec s c); split_and!; auto with lia.
Qed.

(** X17. Where the static capacity fits an [int] and three times the size
    fits a [size_t], [capfunc] on machine integers is [capfunc] on the
    naturals: its answer is at least the size asked for and fits a
    [size_t]. *)
Theorem capfunc_call_in_range (s N c : nat) :
  Z.of_nat N < 2 ^ 31 → 3 * Z.of_nat s < 2 ^ 64 → Z.of_nat c < 2 ^ 64 →
  Word.capfunc_call (Z.of_nat s) (Z.of_nat N) (Z.of_nat c)
    = Z.of_nat (capfunc s N c) ∧
  Z.of_nat s ≤ Word.capfunc_call (Z.of_nat s) (Z.of_nat N) (Z.of_nat c) ∧
  Word.capfunc_call (Z.of_nat s) (Z.of_nat N) (Z.of_nat c) < 2 ^ 64.
Proof.
  intros HN Hs Hc. rewrite capfunc_word_agrees by done.
  split; [done|]. split.
  - apply Nat2Z.inj_le. pose proof (grow_ge s). unfold capfunc.
    destruct (Nat.leb_spec s N); [lia|]. destruct (Nat.leb_spec s c); lia.
  - unfold capfunc.
    destruct (Nat.leb_spec s N); [lia|]. destruct (Nat.leb_spec s c); [lia|].
    rewrite (Nat2Z.inj_div (3 * s) 2).
    apply Z.div_lt_upper_bound; lia.
Qed.

(** X18. When three times the size no longer fits a [size_t], the product
    wraps around and the capacity [capfunc] answers is smaller than the
    size it was asked for. *)
Theorem capfunc_call_wraps (s N c : Z) :
  0 ≤ N < 2 ^ 31 → N < s → c < s → 2 ^ 64 ≤ 3 * s → s < 2 ^ 64 →
  Word.capfunc_call s N c < s.
Proof.
  intros HN HNs Hcs Hlo Hhi.
  unfold Word.capfunc_call, Word.capfunc_word.
  assert (Word.int_of N = N) as ->.
  { unfold Word.int_of. rewrite Z.mod_small by lia. lia. }
  assert (Word.size_t_of N = N) as ->.
  { unfold Word.size_t_of. apply Z.mod_small. lia. }
  destruct (Z.leb_spec s N); [lia|]. destruct (Z.leb_spec s c); [lia|].
  unfold Word.size_t_of.
  pose proof (Z.mod_pos_bound (3 * s) (2 ^ 64) ltac:(lia)) as Hm.
  pose proof (Z.div_mod (3 * s) (2 ^ 64) ltac:(lia)) as Hd.
  assert (1 ≤ 3 * s / 2 ^ 64 ≤ 2) as Hq.
  { split.
    - apply Z.div_le_lower_bound; lia.
    - apply Z.lt_succ_r. apply Z.div_lt_upper_bound; lia. }
  apply Z.div_lt_upper_bound; [lia|].
  remember (3 * s / 2 ^ 64) as q. remember ((3 * s) mod 2 ^ 64) as m.
  assert (q = 1 ∨ q = 2) as [-> | ->] by lia; lia.
Qed.

(** X19. A static capacity from [2^31] up to [2^32 - 1] does not survive
    the conversion to the [int] parameter of [capfunc]: it arrives negative,
    converts back to a [size_t] just below [2^64], and [capfunc] answers that
    value for every size up to [2^63]. *)
Theorem capfunc_call_truncates_static_capacity (s N c : Z) :
  2 ^ 31 ≤ N < 2 ^ 32 → 0 ≤ s ≤ 2 ^ 63 →
  Word.int_of N = N - 2 ^ 32 ∧
  Word.capfunc_call s N c = 2 ^ 64 - 2 ^ 32 + N.
Proof.
  intros HN Hs.
  assert (Hint : Word.int_of N = N - 2 ^ 32).
  { unfold Word.int_of.
    rewrite <- (Z.mod_unique (N + 2 ^ 31) (2 ^ 32) 1 (N + 2 ^ 31 - 2 ^ 32));
      lia. }
  split; [done|].
  unfold Word.capfunc_call, Word.capfunc_word. rewrite Hint.
  assert (Word.size_t_of (N - 2 ^ 32) = 2 ^ 64 - 2 ^ 32 + N) as ->.
  { unfold Word.size_t_of. symmetry.
    apply (Z.mod_unique _ _ (-1)); lia. }
  destruct (Z.leb_spec s (2 ^ 64 - 2 ^ 32 + N)); [done|lia].
Qed.

End machine_integers.

(** * The further properties at work *)

(** X2 on [{1, 2, 3, 4, 5}] in its block of seven slots, with a reference
    to its own first element: the block has room, so the reference stays
    bound. *)
Lemma push_back_appends_witness :
  wf (this (frame_of v12345)) ∧
  refers (Ref (Ptr (HeapArr This) 0) 0) (frame_of v12345) 1 ∧
  survives_push_back (Ref (Ptr (HeapArr This) 0) 0) (this (frame_of v12345)) ∧
  ∃ f', push_back (Ref (Ptr (HeapArr This) 0) 0) (frame_of v12345)
          = Returns () f' ∧
    elements (this f') = [1; 2; 3; 4; 5; 1] ∧ _capacity (this f') = 7.
Proof.
  assert (Hwf : wf (this (frame_of v12345))) by exact wf_v12345.
  assert (Hadd : refers (Ref (Ptr (HeapArr This) 0) 0) (frame_of v12345) 1)
    by (by split_and!).
  assert (Hsafe : survives_push_back (Ref (Ptr (HeapArr This) 0) 0)
                    (this (frame_of v12345)))
    by (intros _; vm_compute; lia).
  split; [exact Hwf|]. split; [exact Hadd|]. split; [exact Hsafe|].
  destruct (push_back_appends (frame_of v12345) _ 1 Hwf Hadd Hsafe)
    as (f' & Hrun & Hel & _ & Hcap & _).
  exists f'. split; [exact Hrun|]. split; [exact Hel|].
  apply Hcap. vm_compute. lia.
Defined.

(** X3 on [{1, 2, 3, 4, 5}]. *)
Lemma pop_back_drops_last_witness :
  wf (this (frame_of v12345)) ∧
  ∃ f', pop_back (frame_of v12345) = Returns () f' ∧
    elements (this f') = [1; 2; 3; 4] ∧ _capacity (this f') = 4.
Proof.
  assert (Hwf : wf (this (frame_of v12345))) by exact wf_v12345.
  split; [exact Hwf|].
  destruct (pop_back_drops_last (frame_of v12345) Hwf)
    as (f' & Hrun & Hel & _ & Hcap & _).
  exists f'. split; [exact Hrun|]. split; [exact Hel|exact Hcap].
Defined.

(** X4 on [{1, 2, 3, 4, 5}]. *)
Lemma clear_empties_and_releases_witness :
  wf (this (frame_of v12345)) ∧
  ∃ f', clear (frame_of v12345) = Returns () f' ∧
    elements (this f') = [] ∧ _capacity (this f') = 4 ∧
    heapArr (this f') = None.
Proof.
  assert (Hwf : wf (this (frame_of v12345))) by exact wf_v12345.
  split; [exact Hwf|].
  destruct (clear_empties_and_releases (frame_of v12345) Hwf)
    as (f' & Hrun & Hel & _ & Hcap & Hheap & _).
  exists f'. split; [exact Hrun|]. split; [exact Hel|].
  split; [exact Hcap|exact Hheap].
Defined.

(** X6 on two containers that hold [{1, 2, 3, 4, 5}] in heap blocks of seven
    and of twelve slots. *)
Lemma operator_eq_compares_elements_witness :
  other (mkFrame v12345 (Some v12345_wide) None [] 0) = Some v12345_wide ∧
  wf v12345 ∧ wf v12345_wide ∧
  (∃ f', operator_eq (mkFrame v12345 (Some v12345_wide) None [] 0)
           = Returns true f') ∧
  (∃ f', operator_ne (mkFrame v12345 (Some v12345_wide) None [] 0)
           = Returns false f').
Proof.
  set (f := mkFrame v12345 (Some v12345_wide) None [] 0).
  assert (Hb : other f = Some v12345_wide) by reflexivity.
  assert (Hwfa : wf (this f)) by exact wf_v12345.
  assert (Hwfb : wf v12345_wide) by exact wf_v12345_wide.
  split; [exact Hb|]. split; [exact Hwfa|]. split; [exact Hwfb|].
  destruct (operator_eq_compares_elements f v12345_wide Hb Hwfa Hwfb)
    as [(f1 & Hrun1 & _) (f2 & Hrun2 & _)].
  split; [exists f1; exact Hrun1|exists f2; exact Hrun2].
Defined.

(** X7 on [{1, 2, 3, 4, 5}] in a block of twelve slots: the copy has a block
    of seven. *)
Lemma copy_constructor_copies_witness :
  wf v12345_wide ∧
  construct VLVector_copy (Some v12345_wide) = Some v12345.
Proof.
  assert (Hwf : wf v12345_wide) by exact wf_v12345_wide.
  split; [exact Hwf|].
  destruct (copy_constructor_copies v12345_wide Hwf) as (f' & Hrun & Hc & _).
  rewrite Hc. vm_compute in Hrun. injection Hrun as <-. reflexivity.
Defined.

(** X8 on [{1, 2, 3}], at the second element. *)
Lemma insert_then_erase_restores_witness :
  wf (this (frame_of v123)) ∧ 1 ≤ _size (this (frame_of v123)) ∧
  (∃ it f',
     (insert_range (iterator v123 1) [9; 8];;
      b ← begin This;
      erase_range (ptr_add b 1) (ptr_add b 3)) (frame_of v123) = Returns it f' ∧
     elements (this f') = [1; 2; 3]) ∧
  (∃ it f',
     (it ← insert (iterator v123 1) 7; erase it) (frame_of v123) = Returns it f' ∧
     elements (this f') = [1; 2; 3]).
Proof.
  assert (Hwf : wf (this (frame_of v123))) by exact wf_v123.
  assert (Hp : 1 ≤ _size (this (frame_of v123))) by (vm_compute; lia).
  split; [exact Hwf|]. split; [exact Hp|].
  destruct (insert_then_erase_restores (frame_of v123) 1 [9; 8] 7 Hwf Hp)
    as [(it & f' & Hrun & Hel & _) (it1 & f1 & Hrun1 & Hel1 & _)].
  split.
  - exists it, f'. split; [exact Hrun|exact Hel].
  - exists it1, f1. split; [exact Hrun1|exact Hel1].
Defined.

(** X9 on [{1, 2, 3, 4, 5}]: erasing the second and third element returns
    an iterator to [4]. *)
Lemma erase_returns_next_witness :
  wf (this (frame_of v12345)) ∧ 1 ≤ 3 ∧ 3 ≤ _size (this (frame_of v12345)) ∧
  ∃ it f',
    erase_range (iterator v12345 1) (iterator v12345 3) (frame_of v12345)
      = Returns it f' ∧
    it = iterator (this f') 1 ∧ elements (this f') !! 1 = Some 4.
Proof.
  assert (Hwf : wf (this (frame_of v12345))) by exact wf_v12345.
  assert (Hab : 1 ≤ 3) by lia.
  assert (Hb : 3 ≤ _size (this (frame_of v12345))) by (vm_compute; lia).
  split; [exact Hwf|]. split; [exact Hab|]. split; [exact Hb|].
  destruct (erase_returns_next (frame_of v12345) 1 3 Hwf Hab Hb)
    as (it & f' & Hrun & Hit & Hel & _).
  exists it, f'. split; [exact Hrun|]. split; [exact Hit|exact Hel].
Defined.

(** X10 on [{1, 2, 3}]. *)
Lemma insert_returns_inserted_witness :
  wf (this (frame_of v123)) ∧ 1 ≤ _size (this (frame_of v123)) ∧
  ∃ it f',
    insert (iterator v123 1) 7 (frame_of v123) = Returns it f' ∧
    elements (this f') !! 1 = Some 7 ∧
    load it f' = Returns 7 (log it f').
Proof.
  assert (Hwf : wf (this (frame_of v123))) by exact wf_v123.
  assert (Hp : 1 ≤ _size (this (frame_of v123))) by (vm_compute; lia).
  split; [exact Hwf|]. split; [exact Hp|].
  destruct (insert_returns_inserted (frame_of v123) 1 7 Hwf Hp)
    as (it & f' & Hrun & _ & Hel & Hload).
  exists it, f'. split; [exact Hrun|]. split; [exact Hel|exact Hload].
Defined.

(** X11 on [{1, 2, 3}]: two elements inserted at [begin() + 1] return
    [begin() + 2]. *)
Lemma range_insert_returns_count_offset_witness :
  wf (this (frame_of v123)) ∧ 1 ≤ _size (this (frame_of v123)) ∧
  ∃ it f',
    insert_range (iterator v123 1) [9; 8] (frame_of v123) = Returns it f' ∧
    it = iterator (this f') 2.
Proof.
  assert (Hwf : wf (this (frame_of v123))) by exact wf_v123.
  assert (Hp : 1 ≤ _size (this (frame_of v123))) by (vm_compute; lia).
  split; [exact Hwf|]. split; [exact Hp|].
  destruct (range_insert_returns_count_offset (frame_of v123) 1 [9; 8] Hwf Hp)
    as (it & f' & Hrun & Hit & _).
  exists it, f'. split; [exact Hrun|exact Hit].
Defined.

(** X12 on [{1, 2, 3, 4, 5}]. *)
Lemma at_reads_the_element_witness :
  wf (this (frame_of v12345)) ∧ 4 < _size (this (frame_of v12345)) ∧
  ∃ f', (at_ 4 ≫= load) (frame_of v12345) = Returns 5 f'.
Proof.
  assert (Hwf : wf (this (frame_of v12345))) by exact wf_v12345.
  assert (Hidx : 4 < _size (this (frame_of v12345))) by (vm_compute; lia).
  split; [exact Hwf|]. split; [exact Hidx|].
  destruct (at_reads_the_element (frame_of v12345) 4 Hwf Hidx)
    as (x & Hx & Hrun & _).
  injection Hx as <-. eexists. exact Hrun.
Defined.

(** X13 on [{1, 2, 3, 4, 5}]. *)
Lemma queries_agree_with_the_elements_witness :
  wf (this (frame_of v12345)) ∧
  size_ (frame_of v12345) = Returns 5 (frame_of v12345) ∧
  empty_ (frame_of v12345) = Returns false (frame_of v12345) ∧
  ∃ f', (b ← data; e ← cend; read_range b e) (frame_of v12345)
          = Returns [1; 2; 3; 4; 5] f'.
Proof.
  assert (Hwf : wf (this (frame_of v12345))) by exact wf_v12345.
  split; [exact Hwf|].
  destruct (queries_agree_with_the_elements (frame_of v12345) Hwf)
    as (Hsize & Hempty & _ & _ & f' & Hread & _).
  split; [exact Hsize|]. split; [exact Hempty|].
  exists f'. exact Hread.
Defined.

(** X14 on [{1, 2, 3, 4}], with a reference to its own last element: both
    calls move the container to the heap. *)
Lemma insert_at_end_is_push_back_witness :
  wf (this (frame_of v1234)) ∧
  refers (Ref (Ptr (StackArr This) 3) 0) (frame_of v1234) 4 ∧
  survives_push_back (Ref (Ptr (StackArr This) 3) 0) (this (frame_of v1234)) ∧
  ∃ it f1 f2,
    insert (iterator v1234 4) 4 (frame_of v1234) = Returns it f1 ∧
    push_back (Ref (Ptr (StackArr This) 3) 0) (frame_of v1234)
      = Returns () f2 ∧
    elements (this f1) = elements (this f2).
Proof.
  assert (Hwf : wf (this (frame_of v1234))) by exact wf_v1234.
  assert (Hadd : refers (Ref (Ptr (StackArr This) 3) 0) (frame_of v1234) 4)
    by (by split_and!).
  assert (Hsafe : survives_push_back (Ref (Ptr (StackArr This) 3) 0)
                    (this (frame_of v1234)))
    by (intros Hheap; discriminate Hheap).
  split; [exact Hwf|]. split; [exact Hadd|]. split; [exact Hsafe|].
  destruct (insert_at_end_is_push_back (frame_of v1234) _ 4 Hwf Hadd Hsafe)
    as (it & f1 & f2 & Hrun1 & Hrun2 & Hel & _).
  exists it, f1, f2. split; [exact Hrun1|]. split; [exact Hrun2|exact Hel].
Defined.

(** X20 on [{1, 2, 3, 4, 5, 6, 7}] in a full block of seven slots, with a
    reference to its own first element. *)
Lemma push_back_reads_released_block_witness :
  wf (this (frame_of v1234567)) ∧
  _size (this (frame_of v1234567)) = _capacity (this (frame_of v1234567)) ∧
  refers (Ref (Ptr (HeapArr This) 0) 0) (frame_of v1234567) 1 ∧
  push_back (Ref (Ptr (HeapArr This) 0) 0) (frame_of v1234567) = Undefined ∧
  ∃ it f',
    insert (iterator v1234567 7) 1 (frame_of v1234567) = Returns it f' ∧
    elements (this f') = [1; 2; 3; 4; 5; 6; 7; 1].
Proof.
  assert (Hwf : wf (this (frame_of v1234567))) by exact wf_v1234567.
  assert (Hfull : _size (this (frame_of v1234567))
                  = _capacity (this (frame_of v1234567))) by reflexivity.
  assert (Hadd : refers (Ref (Ptr (HeapArr This) 0)
                           (released (frame_of v1234567)))
                   (frame_of v1234567) 1)
    by (by split_and!).
  split; [exact Hwf|]. split; [exact Hfull|]. split; [exact Hadd|].
  exact (push_back_reads_released_block (frame_of v1234567) 0 1 Hwf Hfull Hadd).
Defined.

(** X15 on [{1, 2, 3, 4, 5}]. *)
Lemma erase_agrees_with_pop_back_and_clear_witness :
  wf (this (frame_of v12345)) ∧ 0 < _size (this (frame_of v12345)) ∧
  (∃ it f1 f2,
     erase (iterator v12345 4) (frame_of v12345) = Returns it f1 ∧
     pop_back (frame_of v12345) = Returns () f2 ∧
     elements (this f1) = elements (this f2)) ∧
  (∃ it f1 f2,
     erase_range (iterator v12345 0) (iterator v12345 5) (frame_of v12345)
       = Returns it f1 ∧
     clear (frame_of v12345) = Returns () f2 ∧
     elements (this f1) = elements (this f2)).
Proof.
  assert (Hwf : wf (this (frame_of v12345))) by exact wf_v12345.
  assert (Hpos : 0 < _size (this (frame_of v12345))) by (vm_compute; lia).
  split; [exact Hwf|]. split; [exact Hpos|].
  destruct (erase_agrees_with_pop_back_and_clear (frame_of v12345) Hwf Hpos)
    as [(it & f1 & f2 & Hrun1 & Hrun2 & Hel & _)
        (it' & f1' & f2' & Hrun1' & Hrun2' & Hel' & _)].
  split.
  - exists it, f1, f2. split; [exact Hrun1|]. split; [exact Hrun2|exact Hel].
  - exists it', f1', f2'. split; [exact Hrun1'|]. split; [exact Hrun2'|exact Hel'].
Defined.


(** X1 for [capfunc(5, 4, 4)]. *)
Lemma capfunc_fits_the_request_witness :
  (0 ≤ 4 < 2 ^ 31)%Z ∧ (0 ≤ 5)%Z ∧ (3 * 5 < 2 ^ 64)%Z ∧ (0 ≤ 4 < 2 ^ 64)%Z ∧
  ∃ r, Word.capfunc_call 5 4 4 = r ∧ r = 7%Z.
Proof.
  assert (HN : (0 ≤ 4 < 2 ^ 31)%Z) by lia.
  assert (Hs : (0 ≤ 5)%Z) by lia.
  assert (Hs3 : (3 * 5 < 2 ^ 64)%Z) by reflexivity.
  assert (Hc : (0 ≤ 4 < 2 ^ 64)%Z) by lia.
  split; [exact HN|]. split; [exact Hs|]. split; [exact Hs3|].
  split; [exact Hc|].
  destruct (capfunc_fits_the_request 5 4 4 HN Hs Hs3 Hc) as (r & Hr & _).
  exists r. split; [exact Hr|]. rewrite <- Hr. reflexivity.
Defined.

(** X17 for [capfunc(5, 4, 4)]. *)
Lemma capfunc_call_in_range_witness :
  (Z.of_nat 4 < 2 ^ 31)%Z ∧ (3 * Z.of_nat 5 < 2 ^ 64)%Z ∧
  (Z.of_nat 4 < 2 ^ 64)%Z ∧
  Word.capfunc_call 5 4 4 = 7%Z.
Proof.
  assert (HN : (Z.of_nat 4 < 2 ^ 31)%Z) by reflexivity.
  assert (Hs : (3 * Z.of_nat 5 < 2 ^ 64)%Z) by reflexivity.
  assert (Hc : (Z.of_nat 4 < 2 ^ 64)%Z) by reflexivity.
  split; [exact HN|]. split; [exact Hs|]. split; [exact Hc|].
  exact (proj1 (capfunc_call_in_range 5 4 4 HN Hs Hc)).
Defined.

(** X18 for a size of [2^63] elements. *)
Lemma capfunc_call_wraps_witness :
  (0 ≤ 4 < 2 ^ 31)%Z ∧ (4 < 2 ^ 63)%Z ∧ (2 ^ 62 < 2 ^ 63)%Z ∧
  (2 ^ 64 ≤ 3 * 2 ^ 63)%Z ∧ (2 ^ 63 < 2 ^ 64)%Z ∧
  (Word.capfunc_call (2 ^ 63) 4 (2 ^ 62) < 2 ^ 63)%Z.
Proof.
  assert (HN : (0 ≤ 4 < 2 ^ 31)%Z) by lia.
  assert (HNs : (4 < 2 ^ 63)%Z) by reflexivity.
  assert (Hcs : (2 ^ 62 < 2 ^ 63)%Z) by reflexivity.
  assert (Hlo : (2 ^ 64 ≤ 3 * 2 ^ 63)%Z) by lia.
  assert (Hhi : (2 ^ 63 < 2 ^ 64)%Z) by reflexivity.
  split; [exact HN|]. split; [exact HNs|]. split; [exact Hcs|].
  split; [exact Hlo|]. split; [exact Hhi|].
  exact (capfunc_call_wraps (2 ^ 63) 4 (2 ^ 62) HN HNs Hcs Hlo Hhi).
Defined.

(** X19 for a static capacity of [2^31]. *)
Lemma capfunc_call_truncates_static_capacity_witness :
  (2 ^ 31 ≤ 2 ^ 31 < 2 ^ 32)%Z ∧ (0 ≤ 5 ≤ 2 ^ 63)%Z ∧
  Word.capfunc_call 5 (2 ^ 31) (2 ^ 31) = (2 ^ 64 - 2 ^ 31)%Z.
Proof.
  assert (HN : (2 ^ 31 ≤ 2 ^ 31 < 2 ^ 32)%Z) by lia.
  assert (Hs : (0 ≤ 5 ≤ 2 ^ 63)%Z) by lia.
  split; [exact HN|]. split; [exact Hs|].
  exact (proj2 (capfunc_call_truncates_static_capacity 5 (2 ^ 31) (2 ^ 31) HN Hs)).
Defined.
